(** * fandango: a client for the "upcoming movies" listing API

    A shallow embedding of [fandango.go] and the properties of its
    configuration, URL builder, response parser, link resolver and
    pagination engine.

    Conventions of the embedding:
    - Go strings are byte strings ([string]); Go's [int] is [Z], with the
      values of a query taken in the range of [int]; [uint] is [N].
    - A Go map is a [gmap]; a nil map is [None], and so is a nil pointer.
    - A Go pair [(T, error)] is a [result T].
    - Calls that leave the package ([os.Getenv], [strings.TrimSpace],
      [http.Get], [json.Unmarshal]) are either modelled after the Go
      standard library or taken as variables of a section. *)

From Stdlib Require Import ZArith String Ascii List Bool Lia.
From stdpp Require Import gmap strings list pretty sorting.

Local Open Scope Z_scope.

(** ** Errors and results *)

(** The error values the package produces or passes on. *)
Inductive error : Type :=
| errEmptyAPIKey                  (* var errEmptyAPIKey = errors.New(...) *)
| Errorf (msg : string)           (* fmt.Errorf("%s", msg) *)
| TransportError (msg : string)   (* whatever http.Get returns as error *)
| ReadError (msg : string)        (* whatever ioutil.ReadAll returns *)
| UnmarshalError (msg : string).  (* whatever json.Unmarshal returns *)

(** [err.Error()] *)
Definition Error (e : error) : string :=
  match e with
  | errEmptyAPIKey => "empty api key"
  | Errorf msg | TransportError msg | ReadError msg | UnmarshalError msg => msg
  end.

Inductive result (A : Type) : Type :=
| Ok (a : A)
| Err (e : error).
Arguments Ok {A} a.
Arguments Err {A} e.

(** ** Data model *)

Record Client : Type := mkClient {
  version : string;
  apiKey : string
}.

(** [new(Client)] *)
Definition newClient : Client := {| version := ""; apiKey := "" |}.

(** [type LinksMap map[string]string]; [None] is the nil map. *)
Definition LinksMap : Type := option (gmap string string).

(** [m[k]] on a Go map: the zero value when the map is nil or the key absent. *)
Definition index (m : LinksMap) (k : string) : string :=
  match m with
  | None => ""
  | Some g => default "" (g !! k)
  end.

Record Star : Type := mkStar {
  Name : string;
  Id : string;
  Characters : list string
}.

(** [type Size string], the key of a [Poster]. *)
Definition Size : Type := string.
Definition SzUnknown : Size := "unknown".
Definition SzThumbnail : Size := "thumbnail".
Definition SzProfile : Size := "profile".
Definition SzOriginal : Size := "original".

(** A decoded movie. The fields [RuntimeMinutes] (a [float32]) and
    [Ratings] (a map to [interface{}]) are left out: nothing in the
    package reads them. *)
Record Movie : Type := mkMovie {
  Title : string;
  Year : Z;
  MPAARating : string;
  CriticsConsensus : string;
  ReleaseDates : option (gmap string string);
  Synopsis : string;
  Posters : option (gmap Size string);
  AbridgedCast : list Star;
  MovieLinks : LinksMap
}.

Record UpcomingMoviesResultPage : Type := mkPage {
  Total : N;
  Movies : list Movie;
  Links : LinksMap;
  LinkTemplate : string
}.

(** [new(UpcomingMoviesResultPage)] *)
Definition newPage : UpcomingMoviesResultPage :=
  {| Total := 0%N; Movies := []; Links := None; LinkTemplate := "" |}.

(** The [Cancel] field is a receive-only channel; what matters to the
    program is whether it is the nil channel. *)
Inductive CancelChan : Type :=
| NilChan
| SomeChan.

Record UpcomingMovieSearch : Type := mkSearch {
  ItemsPerPage : Z;
  MaxPage : Z;
  Country : string;
  Cancel : CancelChan
}.

(** ** Configuration *)

Definition APIKey (c : Client) : string := apiKey c.

Definition SetVersion (c : Client) (v : string) : Client :=
  {| version := v; apiKey := apiKey c |}.

Definition defaultAPIVersion : string := "1.0".

Definition APIVersion (c : Client) : string :=
  if String.eqb (version c) "" then defaultAPIVersion else version c.

(** [os.Getenv]: the value of the variable, empty when it is not set. *)
Definition Getenv (env : gmap string string) (key : string) : string :=
  default "" (env !! key).

Section Config.
(** [strings.TrimSpace] of the Go standard library. *)
Variable TrimSpace : string → string.

Definition blank (s : string) : Prop := TrimSpace s = "".

Definition SetAPIKey (c : Client) (key : string) : Client :=
  {| version := version c; apiKey := TrimSpace key |}.

(** The [for _, fallback := range fallbacks] loop of [envOrDefault]. *)
Fixpoint envOrDefault_range (retr : string) (fallbacks : list string) : string :=
  match fallbacks with
  | [] => retr
  | fallback :: rest =>
      let retr := TrimSpace fallback in
      if String.eqb retr "" then envOrDefault_range retr rest else retr
  end.

Definition envOrDefault (env : gmap string string) (key : string)
    (fallbacks : list string) : string :=
  let retr := TrimSpace (Getenv env key) in
  if String.eqb retr "" then envOrDefault_range retr fallbacks else retr.

Definition NewDefaultClient (env : gmap string string)
    (apiKeysToTry : list string) : result Client :=
  let client := SetAPIKey newClient (envOrDefault env "FANDANGO_API_KEY" apiKeysToTry) in
  if String.eqb (APIKey client) "" then Err errEmptyAPIKey else Ok client.
End Config.

(** The ASCII part of [strings.TrimSpace]: the six ASCII space bytes are
    removed from both ends. It instantiates the section variable on inputs
    without other Unicode space. *)
Definition asciiSpace (c : ascii) : bool :=
  match c with
  | "009"%char | "010"%char | "011"%char | "012"%char | "013"%char | " "%char => true
  | _ => false
  end.

Fixpoint trimLeft (s : string) : string :=
  match s with
  | EmptyString => EmptyString
  | String c s' => if asciiSpace c then trimLeft s' else s
  end.

Fixpoint trimRight (s : string) : string :=
  match s with
  | EmptyString => EmptyString
  | String c s' =>
      match trimRight s' with
      | EmptyString => if asciiSpace c then EmptyString else String c EmptyString
      | t => String c t
      end
  end.

Definition asciiTrimSpace (s : string) : string := trimRight (trimLeft s).

(** A string that does not start with an ASCII space. *)
Definition headNonSpace (s : string) : Prop :=
  match s with
  | EmptyString => True
  | String c _ => asciiSpace c = false
  end.

(** ** Link resolver *)

(** [func (l *LinksMap) GetNextURL() string]; the receiver is a pointer,
    [None] being the nil pointer. *)
Definition GetNextURL (l : option LinksMap) : string :=
  match l with
  | None => ""
  | Some m => index m "next"
  end.

(** ** URL builder *)

(** [net/url]: [shouldEscape(c, encodeQueryComponent)]. *)
Definition shouldEscape (c : ascii) : bool :=
  let n := N_of_ascii c in
  if ((97 <=? n) && (n <=? 122) || (65 <=? n) && (n <=? 90)
      || (48 <=? n) && (n <=? 57))%N then false
  else match c with
       | "-"%char | "_"%char | "."%char | "~"%char => false
       | _ => true
       end.

(** [const upperhex = "0123456789ABCDEF"], indexed. *)
Definition upperhex (n : N) : ascii :=
  match String.get (N.to_nat n) "0123456789ABCDEF" with
  | Some c => c
  | None => "0"%char
  end.

(** [url.QueryEscape]: a space becomes [+], every other escaped byte
    [%XX]. *)
Fixpoint QueryEscape (s : string) : string :=
  match s with
  | EmptyString => EmptyString
  | String c s' =>
      if Ascii.eqb c " " then String "+" (QueryEscape s')
      else if shouldEscape c then
        String "%" (String (upperhex (N.shiftr (N_of_ascii c) 4))
                   (String (upperhex (N.land (N_of_ascii c) 15)) (QueryEscape s')))
      else String c (QueryEscape s')
  end.

(** [type Values map[string][]string] of [net/url]. *)
Abbreviation Values := (gmap string (list string)).

(** [func (v Values) Set(key, value string)] *)
Definition Values_Set (v : Values) (key value : string) : Values :=
  <[key := [value]]> v.

(** The keys in the order of [slices.Sort] on strings, which is bytewise
    lexicographic ([String.le]). *)
Definition sortedKeys (v : Values) : list string :=
  merge_sort String.le (map_to_list v).*1.

(** The inner loop of [Encode]: one [key=value] per value, [&] between. *)
Definition Encode_values (keyEscaped : string) (vs : list string)
    (buf : string) : string :=
  foldl (λ buf v,
           (if (0 <? Z.of_nat (String.length buf)) then buf +:+ "&" else buf)
           +:+ keyEscaped +:+ "=" +:+ QueryEscape v)
        buf vs.

(** [func (v Values) Encode() string]: keys sorted, values escaped. *)
Definition Encode (v : Values) : string :=
  foldl (λ buf k, Encode_values (QueryEscape k) (default [] (v !! k)) buf)
        "" (sortedKeys v).

Definition baseURL : string := "http://api.rottentomatoes.com/api/public".

(** [fmt.Sprintf("%d", n)] *)
Definition Sprintf_d (n : Z) : string := pretty n.

(** The [url.Values] that [makeUpcomingMoviesURL] encodes; [None] is the
    nil query. *)
Definition upcomingMoviesValues (c : Client)
    (q : option UpcomingMovieSearch) : Values :=
  let values : Values := {[ "apikey" := [apiKey c] ]} in
  match q with
  | None => values
  | Some q =>
      let values :=
        if 0 <? ItemsPerPage q
        then Values_Set values "page_limit" (Sprintf_d (ItemsPerPage q))
        else values in
      let values :=
        if 0 <? MaxPage q
        then Values_Set values "page" (Sprintf_d (MaxPage q))
        else values in
      if negb (String.eqb (Country q) "")
      then Values_Set values "country" (Country q)
      else values
  end.

Definition makeUpcomingMoviesURL (c : Client)
    (q : option UpcomingMovieSearch) : result string :=
  let values := upcomingMoviesValues c q in
  let fullURL :=
    baseURL +:+ "/v" +:+ APIVersion c +:+ "/lists/movies/upcoming/json?"
            +:+ Encode values in
  Ok fullURL.

(** ** Response parser *)

(** [res.Body] as [ioutil.ReadAll] sees it: the bytes, or a failing read. *)
Inductive ReadCloser : Type :=
| Readable (blob : string)
| Broken (msg : string).

Record Response : Type := mkResponse {
  StatusCode : Z;
  Status : string;
  Body : ReadCloser
}.

Definition ReadAll (r : ReadCloser) : result string :=
  match r with
  | Readable blob => Ok blob
  | Broken msg => Err (ReadError msg)
  end.

Definition statusOK (code : Z) : bool := (200 <=? code) && (code <=? 299).

Section Parser.
(** The decoder behind [json.Unmarshal]: from the bytes and the value
    to fill, the filled value or the message of the decoding error. *)
Variable decode :
  string → UpcomingMoviesResultPage → string + UpcomingMoviesResultPage.

Definition json_Unmarshal (blob : string) (v : UpcomingMoviesResultPage)
    : result UpcomingMoviesResultPage :=
  match decode blob v with
  | inl msg => Err (UnmarshalError msg)
  | inr page => Ok page
  end.

Definition parseUpcomingMoviesResponse (res : Response)
    : result UpcomingMoviesResultPage :=
  if negb (statusOK (StatusCode res)) then Err (Errorf (Status res))
  else
    match ReadAll (Body res) with
    | Err err => Err err
    | Ok blob =>
        let umpage := newPage in
        match json_Unmarshal blob umpage with
        | Err err => Err err
        | Ok umpage => Ok umpage
        end
    end.
End Parser.

(** ** Pagination engine *)

(** The case of the [select] that fires in one pass of the loop. *)
Inductive SelectCase : Type :=
| RecvCancel    (* case _, _ = <-query.Cancel *)
| RecvTick.     (* case <-throttle.C *)

Global Instance SelectCase_eq_dec : EqDecision SelectCase.
Proof. solve_decision. Defined.

(** A nil channel is never ready to receive from. *)
Definition ready (q : UpcomingMovieSearch) (ev : SelectCase) : bool :=
  match ev, Cancel q with
  | RecvCancel, NilChan => false
  | _, _ => true
  end.

Section Engine.
(** The state of everything behind [http.Get]. *)
Context {World : Type}.
Variable http_Get : World → string → result Response * World.
Variable decode :
  string → UpcomingMoviesResultPage → string + UpcomingMoviesResultPage.

(** The goroutine started by [UpcomingMovies]: its variables [dataURL]
    and [working], the world it fetches from, the URLs it has passed to
    [http.Get] and the pages it has sent on [pagesChan], oldest first.
    The consumer is taken to receive every page that is sent. *)
Record Goroutine : Type := mkGoroutine {
  dataURL : string;
  working : bool;
  world : World;
  requests : list string;
  pagesChan : list UpcomingMoviesResultPage
}.

Definition stop (g : Goroutine) : Goroutine :=
  mkGoroutine (dataURL g) false (world g) (requests g) (pagesChan g).

Definition send (g : Goroutine) (page : UpcomingMoviesResultPage) : Goroutine :=
  mkGoroutine (dataURL g) (working g) (world g) (requests g) (pagesChan g ++ [page]).

Definition setURL (g : Goroutine) (u : string) : Goroutine :=
  mkGoroutine u (working g) (world g) (requests g) (pagesChan g).

(** [http.Get(dataURL)], logged. *)
Definition get (g : Goroutine) : result Response * Goroutine :=
  let '(res, w) := http_Get (world g) (dataURL g) in
  (res, mkGoroutine (dataURL g) (working g) w
                    (requests g ++ [dataURL g]) (pagesChan g)).

(** The body of the [select], for the case that fired. Every [break]
    in it leaves the [select] statement, not the [for] loop. *)
Definition select (ev : SelectCase) (g : Goroutine) : Goroutine :=
  match ev with
  | RecvCancel => g
  | RecvTick =>
      let '(res, g) := get g in
      match res with
      | Err _ => stop g
      | Ok res =>
          match parseUpcomingMoviesResponse decode res with
          | Err _ => stop g
          | Ok page =>
              let g := send g page in
              let g := setURL g (GetNextURL (Some (Links page))) in
              if String.eqb (dataURL g) "" then stop g else g
          end
      end
  end.

(** How far the goroutine got. *)
Inductive Outcome : Type :=
| Waiting (g : Goroutine)    (* in the select, pagesChan open *)
| Closed (g : Goroutine)     (* loop left, pagesChan closed *)
| Panicked (g : Goroutine).  (* nil pointer dereference *)

(** [for working { select { ... } }] followed by the deferred
    [close(pagesChan)], run on the select cases the environment lets
    fire. The operand [query.Cancel] is evaluated on entering the
    select. *)
Fixpoint loop (query : option UpcomingMovieSearch)
    (events : list SelectCase) (g : Goroutine) {struct events} : Outcome :=
  if working g then
    match query with
    | None => Panicked g
    | Some q =>
        match events with
        | [] => Waiting g
        | ev :: events =>
            if ready q ev then loop query events (select ev g)
            else loop query events g
        end
    end
  else Closed g.

(** [UpcomingMovies]: the error, or the goroutine it starts. *)
Definition UpcomingMovies (c : Client) (query : option UpcomingMovieSearch)
    (w : World) : result Goroutine :=
  let apiKey := APIKey c in
  if String.eqb apiKey "" then Err errEmptyAPIKey
  else
    match makeUpcomingMoviesURL c query with
    | Err err => Err err
    | Ok dataURL => Ok (mkGoroutine dataURL true w [] [])
    end.

(** The page a fetch of [u] in world [w] yields, and the world after. *)
Definition fetch (w : World) (u : string)
    : result UpcomingMoviesResultPage * World :=
  let '(res, w') := http_Get w u in
  (match res with
   | Err err => Err err
   | Ok res => parseUpcomingMoviesResponse decode res
   end, w').

(** The entry of a page's links map at the key ["next"], if any. *)
Definition next_entry (page : UpcomingMoviesResultPage) : option string :=
  Links page ≫= (.!! "next").

(** From world [w] and URL [u] the transport serves [pages] along the
    ["next"] entries: each page but the last has an entry, which leads
    to the page after it, and the last has none. *)
Fixpoint serves (w : World) (u : string)
    (pages : list UpcomingMoviesResultPage) : Prop :=
  match pages with
  | [] => False
  | page :: rest =>
      (fetch w u).1 = Ok page ∧
      match next_entry page, rest with
      | None, [] => True
      | Some u', _ :: _ => serves (fetch w u).2 u' rest
      | _, _ => False
      end
  end.
End Engine.

(** ** Substrings *)

(** [strings.HasPrefix] *)
Fixpoint HasPrefix (s pre : string) {struct pre} : bool :=
  match pre, s with
  | EmptyString, _ => true
  | String a pre', String b s' => Ascii.eqb a b && HasPrefix s' pre'
  | String _ _, EmptyString => false
  end.

(** [strings.Contains] *)
Fixpoint Contains (s substr : string) : bool :=
  HasPrefix s substr ||
  match s with
  | EmptyString => false
  | String _ s' => Contains s' substr
  end.

(** The number of ticks among the select cases that fired. *)
Definition ticks (events : list SelectCase) : nat :=
  length (filter (λ ev, ev = RecvTick) events).

(** ** Measures used in the statements *)

(** The strings [QueryEscape] leaves as they are: every byte is a letter,
    a digit or one of [-_.~]. *)
Fixpoint unreserved (s : string) : bool :=
  match s with
  | EmptyString => true
  | String c s' => negb (shouldEscape c) && unreserved s'
  end.

(** [strings.Count(s, string(c))] for a single byte [c]. *)
Fixpoint count_byte (c : ascii) (s : string) : nat :=
  match s with
  | EmptyString => O
  | String b s' => ((if Ascii.eqb b c then 1 else 0) + count_byte c s')%nat
  end.

(** The variables of the goroutine at the point an outcome describes. *)
Definition goroutine_of {World : Type} (o : @Outcome World) : @Goroutine World :=
  match o with
  | Waiting g | Closed g | Panicked g => g
  end.

(** What the loop makes of a page's links: [page.Links.GetNextURL()]. *)
Definition nextURL (page : UpcomingMoviesResultPage) : string :=
  GetNextURL (Some (Links page)).

(** ** A scripted transport and decoder

    Test doubles on which the model runs: a transport that answers from a
    table of URLs and a decoder that answers from a table of bodies. *)

Definition scripted_Get (routes : gmap string Response) (w : unit)
    (u : string) : result Response * unit :=
  (match routes !! u with
   | Some res => Ok res
   | None => Err (TransportError "unsupported protocol scheme")
   end, w).

Definition scripted_decode (bodies : gmap string UpcomingMoviesResultPage)
    (blob : string) (v : UpcomingMoviesResultPage)
    : string + UpcomingMoviesResultPage :=
  match bodies !! blob with
  | Some page => inr page
  | None => inl "invalid character"
  end.

Definition movie (title : string) : Movie :=
  {| Title := title; Year := 2017; MPAARating := "PG"; CriticsConsensus := "";
     ReleaseDates := Some {[ "theater" := "2017-12-15" ]}; Synopsis := "";
     Posters := None; AbridgedCast := []; MovieLinks := None |}.

(** Two linked pages, as in the scenario of a 25-movie listing. *)
Definition page1 : UpcomingMoviesResultPage :=
  {| Total := 25%N; Movies := [movie "A"; movie "B"];
     Links := Some {[ "next" := "url2" ]}; LinkTemplate := "" |}.

Definition page2 : UpcomingMoviesResultPage :=
  {| Total := 25%N; Movies := [movie "C"]; Links := Some ∅; LinkTemplate := "" |}.

(** A page whose links map has the key ["next"] with an empty value. *)
Definition page_empty_next : UpcomingMoviesResultPage :=
  {| Total := 25%N; Movies := [movie "A"; movie "B"];
     Links := Some {[ "next" := "" ]}; LinkTemplate := "" |}.

Definition bodies : gmap string UpcomingMoviesResultPage :=
  {[ "body1" := page1; "body2" := page2; "body3" := page_empty_next;
     "body0" := newPage ]}.

Definition ok_response (blob : string) : Response :=
  {| StatusCode := 200; Status := "200 OK"; Body := Readable blob |}.

Definition demo_client : Client := {| version := ""; apiKey := "k" |}.

Definition demo_query : UpcomingMovieSearch :=
  {| ItemsPerPage := 10; MaxPage := 1; Country := ""; Cancel := NilChan |}.

Definition demo_URL : string :=
  "http://api.rottentomatoes.com/api/public/v1.0/lists/movies/upcoming/json?apikey=k&page=1&page_limit=10".

(** The same query with a cancellation channel. *)
Definition cancellable_query : UpcomingMovieSearch :=
  {| ItemsPerPage := 10; MaxPage := 1; Country := ""; Cancel := SomeChan |}.

(** Page 1 links to ["url2"], which serves page 2, the last one. *)
Definition routes_two_pages : gmap string Response :=
  {[ demo_URL := ok_response "body1"; "url2" := ok_response "body2" ]}.

(** Page 1 has the entry ["next"] with the empty URL, at which the
    transport serves page 2. *)
Definition routes_empty_next : gmap string Response :=
  {[ demo_URL := ok_response "body3"; "" := ok_response "body2" ]}.

(** Page 1 links to ["url2"], which answers with a server error. *)
Definition routes_bad_page2 : gmap string Response :=
  {[ demo_URL := ok_response "body1";
     "url2" := {| StatusCode := 500; Status := "500 Internal Server Error";
                  Body := Readable "" |} ]}.

(** A single page without a ["next"] entry. *)
Definition routes_last_page : gmap string Response :=
  {[ demo_URL := ok_response "body2" ]}.

(** A page whose ["next"] entry is the URL it is served at. *)
Definition page_self : UpcomingMoviesResultPage :=
  {| Total := 1%N; Movies := [movie "A"];
     Links := Some {[ "next" := demo_URL ]}; LinkTemplate := "" |}.

Definition bodies_self : gmap string UpcomingMoviesResultPage :=
  {[ "body" := page_self ]}.

Definition routes_self : gmap string Response :=
  {[ demo_URL := ok_response "body" ]}.

(** * Properties *)

(** ** Link resolver *)

(** C7. The link resolver returns the value stored at the key "next", and
    the empty string when the receiver is nil, the map is nil or the key
    is absent; it is a total function, so it never raises. For the map
    with "next" at X it returns X, for nil and for the empty map "". *)
Theorem GetNextURL_spec :
  (∀ (m : gmap string string) (x : string),
      m !! "next" = Some x → GetNextURL (Some (Some m)) = x) ∧
  (∀ m : gmap string string,
      m !! "next" = None → GetNextURL (Some (Some m)) = "") ∧
  GetNextURL (Some None) = "" ∧
  GetNextURL None = "" ∧
  (∀ X : string, GetNextURL (Some (Some {[ "next" := X ]})) = X) ∧
  GetNextURL (Some (Some ∅)) = "".
Proof.
  split; [|split; [|split; [|split; [|split]]]]; try reflexivity.
  - intros m x Hm. simpl. by rewrite Hm.
  - intros m Hm. simpl. by rewrite Hm.
Qed.

Lemma GetNextURL_spec_witness :
  GetNextURL (Some (Links page1)) = "url2" ∧
  GetNextURL (Some (Links page2)) = "".
Proof.
  split.
  - apply (proj1 GetNextURL_spec). reflexivity.
  - apply (proj1 (proj2 GetNextURL_spec)). reflexivity.
Defined.

(** ** Configuration *)

Lemma eqb_empty_true (s : string) : String.eqb s "" = true ↔ s = "".
Proof. apply String.eqb_eq. Qed.

Lemma eqb_empty_false (s : string) : String.eqb s "" = false ↔ s ≠ "".
Proof. apply String.eqb_neq. Qed.

Section ConfigFacts.
Variable TrimSpace : string → string.
(** Trimming a trimmed string changes nothing. *)
Hypothesis TrimSpace_idemp : ∀ s, TrimSpace (TrimSpace s) = TrimSpace s.

Lemma envOrDefault_range_blank retr fallbacks :
  retr = "" → Forall (blank TrimSpace) fallbacks →
  envOrDefault_range TrimSpace retr fallbacks = "".
Proof.
  intros Hretr Hall. revert retr Hretr.
  induction Hall as [|fallback rest Hb _ IH]; intros retr Hretr; simpl.
  - exact Hretr.
  - rewrite Hb. simpl. by apply IH.
Qed.

Lemma envOrDefault_range_first retr pre c post :
  Forall (blank TrimSpace) pre → TrimSpace c ≠ "" →
  envOrDefault_range TrimSpace retr (pre ++ c :: post) = TrimSpace c.
Proof.
  intros Hpre Hc. revert retr.
  induction Hpre as [|fallback rest Hb _ IH]; intros retr; simpl.
  - by apply eqb_empty_false in Hc as ->.
  - rewrite Hb. simpl. apply IH.
Qed.

Lemma envOrDefault_blank env key fallbacks :
  Forall (blank TrimSpace) (Getenv env key :: fallbacks) →
  envOrDefault TrimSpace env key fallbacks = "".
Proof.
  intros Hall. apply Forall_cons in Hall as [Henv Hall].
  unfold envOrDefault. rewrite Henv. simpl.
  by apply envOrDefault_range_blank.
Qed.

Lemma envOrDefault_first env key fallbacks pre c post :
  Getenv env key :: fallbacks = pre ++ c :: post →
  Forall (blank TrimSpace) pre → TrimSpace c ≠ "" →
  envOrDefault TrimSpace env key fallbacks = TrimSpace c.
Proof.
  intros Heq Hpre Hc. unfold envOrDefault.
  destruct pre as [|e pre]; simpl in Heq; injection Heq as -> ->.
  - by apply eqb_empty_false in Hc as ->.
  - apply Forall_cons in Hpre as [He Hpre]. rewrite He. simpl.
    by apply envOrDefault_range_first.
Qed.

(** A list of candidates is all blank, or splits at its first
    non-blank one. *)
Lemma first_non_blank (candidates : list string) :
  Forall (blank TrimSpace) candidates ∨
  ∃ pre c post, candidates = pre ++ c :: post ∧ Forall (blank TrimSpace) pre ∧
                TrimSpace c ≠ "".
Proof.
  induction candidates as [|c rest IH].
  - left. constructor.
  - destruct (decide (TrimSpace c = "")) as [Hc|Hc].
    + destruct IH as [Hall|(pre & d & post & -> & Hpre & Hd)].
      * left. by constructor.
      * right. exists (c :: pre), d, post. repeat split; [by constructor|done].
    + right. exists [], c, rest. repeat split; [constructor|done].
Qed.

Lemma NewDefaultClient_blank env keys :
  Forall (blank TrimSpace) (Getenv env "FANDANGO_API_KEY" :: keys) →
  NewDefaultClient TrimSpace env keys = Err errEmptyAPIKey.
Proof.
  intros Hall. unfold NewDefaultClient, SetAPIKey, APIKey. simpl.
  rewrite (envOrDefault_blank _ _ _ Hall).
  assert (TrimSpace "" = "") as ->; [|done].
  apply Forall_cons in Hall as [Henv _]. unfold blank in Henv.
  by rewrite <- Henv, TrimSpace_idemp.
Qed.

Lemma NewDefaultClient_first env keys pre c post :
  Getenv env "FANDANGO_API_KEY" :: keys = pre ++ c :: post →
  Forall (blank TrimSpace) pre → TrimSpace c ≠ "" →
  NewDefaultClient TrimSpace env keys
  = Ok {| version := ""; apiKey := TrimSpace c |}.
Proof.
  intros Heq Hpre Hc. unfold NewDefaultClient, SetAPIKey, APIKey. simpl.
  rewrite (envOrDefault_first _ _ _ _ _ _ Heq Hpre Hc), TrimSpace_idemp.
  by apply eqb_empty_false in Hc as ->.
Qed.

(** C8. Client construction returns the "empty api key" error exactly
    when the environment value and every fallback argument are blank
    after trimming; otherwise the candidates (environment first, then
    the fallbacks in order) split at a first non-blank one, and the
    client returned stores that candidate, trimmed, as its API key. *)
Theorem NewDefaultClient_spec (env : gmap string string) (keys : list string) :
  let candidates := Getenv env "FANDANGO_API_KEY" :: keys in
  Error errEmptyAPIKey = "empty api key" ∧
  (NewDefaultClient TrimSpace env keys = Err errEmptyAPIKey
   ↔ Forall (λ s, TrimSpace s = "") candidates) ∧
  (NewDefaultClient TrimSpace env keys = Err errEmptyAPIKey ∨
   ∃ pre c post,
     candidates = pre ++ c :: post ∧
     Forall (λ s, TrimSpace s = "") pre ∧ TrimSpace c ≠ "" ∧
     ∃ client, NewDefaultClient TrimSpace env keys = Ok client ∧
               APIKey client = TrimSpace c).
Proof.
  intros candidates.
  destruct (first_non_blank candidates)
    as [Hall|(pre & c & post & Heq & Hpre & Hc)].
  - pose proof (NewDefaultClient_blank env keys Hall) as Herr.
    split; [done|]. split; [done|]. by left.
  - pose proof (NewDefaultClient_first env keys pre c post Heq Hpre Hc) as Hok.
    split; [done|]. split.
    + split; [by rewrite Hok|].
      intros Hall. exfalso. apply Hc. fold candidates in Heq.
      rewrite Heq in Hall. apply Forall_app in Hall as [_ Hall].
      by apply Forall_cons in Hall as [Hb _].
    + right. exists pre, c, post. repeat split; try done.
      eexists. split; [exact Hok|done].
Qed.
End ConfigFacts.

(** The ASCII trimmer is idempotent. *)
Lemma trimLeft_head (s : string) : headNonSpace (trimLeft s).
Proof.
  induction s as [|c s IH]; simpl; [done|].
  destruct (asciiSpace c) eqn:Hc; [exact IH|exact Hc].
Qed.

Lemma trimLeft_id (s : string) : headNonSpace s → trimLeft s = s.
Proof. destruct s as [|c s]; simpl; [done|]. by intros ->. Qed.

Lemma trimRight_head (s : string) : headNonSpace s → headNonSpace (trimRight s).
Proof.
  destruct s as [|c s]; simpl; [done|]. intros Hc.
  destruct (trimRight s); simpl; by rewrite ?Hc.
Qed.

Lemma trimRight_idemp (s : string) : trimRight (trimRight s) = trimRight s.
Proof.
  induction s as [|c s IH]; simpl; [done|].
  destruct (trimRight s) as [|d t] eqn:Ht.
  - destruct (asciiSpace c) eqn:Hc; simpl; by rewrite ?Hc.
  - change (trimRight (String c (String d t))) with
      (match trimRight (String d t) with
       | EmptyString => if asciiSpace c then EmptyString else String c EmptyString
       | t' => String c t'
       end).
    by rewrite IH.
Qed.

Lemma asciiTrimSpace_idemp (s : string) :
  asciiTrimSpace (asciiTrimSpace s) = asciiTrimSpace s.
Proof.
  unfold asciiTrimSpace.
  rewrite (trimLeft_id (trimRight (trimLeft s))).
  - apply trimRight_idemp.
  - apply trimRight_head, trimLeft_head.
Qed.

Lemma NewDefaultClient_spec_witness :
  NewDefaultClient asciiTrimSpace {[ "FANDANGO_API_KEY" := "  " ]} [""; " key1 "; "key2"]
  = Err errEmptyAPIKey
  ∨ ∃ pre c post,
      Getenv {[ "FANDANGO_API_KEY" := "  " ]} "FANDANGO_API_KEY" :: [""; " key1 "; "key2"]
      = pre ++ c :: post ∧
      Forall (λ s, asciiTrimSpace s = "") pre ∧ asciiTrimSpace c ≠ "" ∧
      ∃ client,
        NewDefaultClient asciiTrimSpace {[ "FANDANGO_API_KEY" := "  " ]}
                         [""; " key1 "; "key2"] = Ok client ∧
        APIKey client = asciiTrimSpace c.
Proof.
  exact (proj2 (proj2 (NewDefaultClient_spec asciiTrimSpace asciiTrimSpace_idemp
                         {[ "FANDANGO_API_KEY" := "  " ]} [""; " key1 "; "key2"]))).
Defined.

Example NewDefaultClient_fallback :
  NewDefaultClient asciiTrimSpace {[ "FANDANGO_API_KEY" := "  " ]} [""; " key1 "; "key2"]
  = Ok {| version := ""; apiKey := "key1" |}.
Proof. reflexivity. Qed.

Example NewDefaultClient_env :
  NewDefaultClient asciiTrimSpace {[ "FANDANGO_API_KEY" := " secret" ]} ["key1"]
  = Ok {| version := ""; apiKey := "secret" |}.
Proof. reflexivity. Qed.

Example NewDefaultClient_none :
  NewDefaultClient asciiTrimSpace ∅ [" "; ""] = Err errEmptyAPIKey.
Proof. reflexivity. Qed.

(** ** URL builder *)

Lemma append_assoc (a b c : string) : (a +:+ b) +:+ c = a +:+ b +:+ c.
Proof.
  induction a as [|x a IH]; [done|].
  change (String x ((a +:+ b) +:+ c) = String x (a +:+ b +:+ c)).
  by rewrite IH.
Qed.

Lemma append_nil_r (a : string) : a +:+ "" = a.
Proof.
  induction a as [|x a IH]; [done|].
  change (String x (a +:+ "") = String x a). by rewrite IH.
Qed.

Lemma HasPrefix_app (pre post : string) : HasPrefix (pre +:+ post) pre = true.
Proof.
  induction pre as [|a pre IH]; simpl; [done|].
  by rewrite Ascii.eqb_refl, IH.
Qed.

Lemma Contains_app (pre substr post : string) :
  Contains (pre +:+ substr +:+ post) substr = true.
Proof.
  induction pre as [|a pre IH]; simpl.
  - destruct (substr +:+ post) eqn:E; simpl; rewrite <- ?E;
      by rewrite HasPrefix_app.
  - rewrite IH. apply orb_true_r.
Qed.

Lemma HasPrefix_inv (s pre : string) :
  HasPrefix s pre = true → ∃ post, s = pre +:+ post.
Proof.
  revert s. induction pre as [|a pre IH]; intros s; simpl.
  - intros _. by exists s.
  - destruct s as [|b s]; [done|].
    intros [Hab Hp]%andb_true_iff. apply Ascii.eqb_eq in Hab as ->.
    destruct (IH _ Hp) as [post ->]. by exists post.
Qed.

(** [Contains] decides the occurrence of a substring. *)
Lemma Contains_spec (s substr : string) :
  Contains s substr = true ↔ ∃ pre post, s = pre +:+ substr +:+ post.
Proof.
  split.
  - induction s as [|b s IH]; simpl.
    + rewrite orb_false_r. intros [post ->]%HasPrefix_inv. by exists "", post.
    + intros [Hp|Hc]%orb_true_iff.
      * apply HasPrefix_inv in Hp as [post ->]. by exists "", post.
      * destruct (IH Hc) as (pre & post & ->). by exists (String b pre), post.
  - intros (pre & post & ->). apply Contains_app.
Qed.

(** The parameters of the request for a query with 10 items per page,
    page 2 and no country, in the order [Encode] writes them. *)
Lemma Encode_page2 (key : string) (cancel : CancelChan) :
  Encode (upcomingMoviesValues {| version := "1.0"; apiKey := key |}
            (Some {| ItemsPerPage := 10; MaxPage := 2; Country := "";
                     Cancel := cancel |}))
  = "apikey=" +:+ QueryEscape key +:+ "&page=2&page_limit=10".
Proof.
  transitivity ((((("apikey=" +:+ QueryEscape key) +:+ "&") +:+ "page=2") +:+ "&")
                +:+ "page_limit=10").
  - reflexivity.
  - by rewrite !append_assoc.
Qed.

Lemma Encode_zero (key : string) (cancel : CancelChan) :
  Encode (upcomingMoviesValues {| version := "1.0"; apiKey := key |}
            (Some {| ItemsPerPage := 0; MaxPage := 0; Country := "";
                     Cancel := cancel |}))
  = "apikey=" +:+ QueryEscape key.
Proof. reflexivity. Qed.

(** C3, as the code has it. For a client whose API version is "1.0", the
    URL built for a query with itemsPerPage=10, maxPage=2 and country=""
    ends in the parameters sorted by name, so it contains the substring
    [page=2&page_limit=10], and it has no [country] parameter; the URL
    built for a query with all fields zero or empty has the API key as its
    only parameter. *)
Theorem makeUpcomingMoviesURL_sorted (c : Client) (q : UpcomingMovieSearch) :
  APIVersion c = "1.0" → Country q = "" →
  (ItemsPerPage q = 10 → MaxPage q = 2 →
     ∃ fullURL,
       makeUpcomingMoviesURL c (Some q) = Ok fullURL ∧
       fullURL = baseURL +:+ "/v1.0/lists/movies/upcoming/json?apikey="
                         +:+ QueryEscape (apiKey c) +:+ "&page=2&page_limit=10" ∧
       Contains fullURL "page=2&page_limit=10" = true ∧
       dom (upcomingMoviesValues c (Some q)) = {[ "apikey"; "page"; "page_limit" ]} ∧
       "country" ∉ dom (upcomingMoviesValues c (Some q))) ∧
  (ItemsPerPage q = 0 → MaxPage q = 0 →
     makeUpcomingMoviesURL c (Some q)
     = Ok (baseURL +:+ "/v1.0/lists/movies/upcoming/json?apikey="
                   +:+ QueryEscape (apiKey c)) ∧
     dom (upcomingMoviesValues c (Some q)) = {[ "apikey" ]}).
Proof.
  intros Hv Hc. destruct q as [items page country cancel]. simpl in Hc. subst country.
  split; simpl; intros -> ->.
  - eexists. split; [reflexivity|]. unfold makeUpcomingMoviesURL.
    assert (upcomingMoviesValues c
              (Some {| ItemsPerPage := 10; MaxPage := 2; Country := "";
                       Cancel := cancel |})
            = upcomingMoviesValues {| version := "1.0"; apiKey := apiKey c |}
                (Some {| ItemsPerPage := 10; MaxPage := 2; Country := "";
                         Cancel := cancel |})) as Hvals by reflexivity.
    rewrite Hv, Hvals, Encode_page2.
    split; [reflexivity|]. split.
    + apply Contains_spec.
      exists (baseURL +:+ "/v1.0/lists/movies/upcoming/json?apikey="
                      +:+ QueryEscape (apiKey c) +:+ "&"), "".
      by rewrite append_nil_r, !append_assoc.
    + unfold upcomingMoviesValues, Values_Set. simpl.
      rewrite !dom_insert_L, dom_singleton_L.
      split; [set_solver|]. set_solver.
  - unfold makeUpcomingMoviesURL.
    assert (upcomingMoviesValues c
              (Some {| ItemsPerPage := 0; MaxPage := 0; Country := "";
                       Cancel := cancel |})
            = upcomingMoviesValues {| version := "1.0"; apiKey := apiKey c |}
                (Some {| ItemsPerPage := 0; MaxPage := 0; Country := "";
                         Cancel := cancel |})) as Hvals by reflexivity.
    rewrite Hv, Hvals, Encode_zero.
    split; [reflexivity|].
    unfold upcomingMoviesValues. simpl. by rewrite dom_singleton_L.
Qed.

Lemma makeUpcomingMoviesURL_sorted_witness :
  ∃ fullURL,
    makeUpcomingMoviesURL {| version := "1.0"; apiKey := "k" |}
      (Some {| ItemsPerPage := 10; MaxPage := 2; Country := ""; Cancel := NilChan |})
    = Ok fullURL ∧
    fullURL = baseURL +:+ "/v1.0/lists/movies/upcoming/json?apikey="
                      +:+ QueryEscape "k" +:+ "&page=2&page_limit=10" ∧
    Contains fullURL "page=2&page_limit=10" = true ∧
    dom (upcomingMoviesValues {| version := "1.0"; apiKey := "k" |}
           (Some {| ItemsPerPage := 10; MaxPage := 2; Country := "";
                    Cancel := NilChan |}))
    = {[ "apikey"; "page"; "page_limit" ]} ∧
    "country" ∉ dom (upcomingMoviesValues {| version := "1.0"; apiKey := "k" |}
                       (Some {| ItemsPerPage := 10; MaxPage := 2; Country := "";
                                Cancel := NilChan |})).
Proof.
  apply (makeUpcomingMoviesURL_sorted {| version := "1.0"; apiKey := "k" |}
           {| ItemsPerPage := 10; MaxPage := 2; Country := ""; Cancel := NilChan |});
    reflexivity.
Defined.

(** C3, as stated, fails: with API version "1.0" and key "k", the URL for
    itemsPerPage=10, maxPage=2, country="" is
    [...json?apikey=k&page=2&page_limit=10], in which
    [page_limit=10&page=2] does not occur. *)
Lemma makeUpcomingMoviesURL_counterexample :
  makeUpcomingMoviesURL {| version := "1.0"; apiKey := "k" |}
    (Some {| ItemsPerPage := 10; MaxPage := 2; Country := ""; Cancel := NilChan |})
  = Ok "http://api.rottentomatoes.com/api/public/v1.0/lists/movies/upcoming/json?apikey=k&page=2&page_limit=10"
  ∧ Contains
      "http://api.rottentomatoes.com/api/public/v1.0/lists/movies/upcoming/json?apikey=k&page=2&page_limit=10"
      "page_limit=10&page=2" = false.
Proof. split; vm_compute; reflexivity. Qed.

Example makeUpcomingMoviesURL_escapes :
  makeUpcomingMoviesURL {| version := ""; apiKey := "a b&c" |}
    (Some {| ItemsPerPage := 0; MaxPage := 3; Country := "US"; Cancel := NilChan |})
  = Ok "http://api.rottentomatoes.com/api/public/v1.0/lists/movies/upcoming/json?apikey=a+b%26c&country=US&page=3".
Proof. vm_compute. reflexivity. Qed.

(** ** Response parser *)

Lemma statusOK_range (code : Z) : statusOK code = true ↔ 200 ≤ code ≤ 299.
Proof. unfold statusOK. rewrite andb_true_iff, !Z.leb_le. lia. Qed.

Section ParserFacts.
Variable decode :
  string → UpcomingMoviesResultPage → string + UpcomingMoviesResultPage.

Lemma parse_bad_status (res : Response) :
  statusOK (StatusCode res) = false →
  parseUpcomingMoviesResponse decode res = Err (Errorf (Status res)).
Proof. intros H. unfold parseUpcomingMoviesResponse. by rewrite H. Qed.

Lemma parse_good_status (res : Response) :
  statusOK (StatusCode res) = true →
  parseUpcomingMoviesResponse decode res =
  match Body res with
  | Broken msg => Err (ReadError msg)
  | Readable blob =>
      match decode blob newPage with
      | inl msg => Err (UnmarshalError msg)
      | inr page => Ok page
      end
  end.
Proof.
  intros H. unfold parseUpcomingMoviesResponse, json_Unmarshal. rewrite H. simpl.
  destruct (Body res) as [blob|msg]; simpl; [|done].
  by destruct (decode blob newPage).
Qed.

(** C6. The parser fails with the error made of the response's status
    text exactly when the status code is outside [200,299]; for a status
    inside that range whose body is read and decodes as a page, it
    returns that very page, whatever the page is, so also one with zero
    movies and no "next" link. *)
Theorem parseUpcomingMoviesResponse_spec (res : Response) :
  (parseUpcomingMoviesResponse decode res = Err (Errorf (Status res))
   ↔ ¬ (200 ≤ StatusCode res ≤ 299)) ∧
  (∀ msg, parseUpcomingMoviesResponse decode res = Err (Errorf msg) →
          msg = Status res ∧ ¬ (200 ≤ StatusCode res ≤ 299)) ∧
  (∀ blob page,
      200 ≤ StatusCode res ≤ 299 → Body res = Readable blob →
      decode blob newPage = inr page →
      parseUpcomingMoviesResponse decode res = Ok page).
Proof.
  destruct (statusOK (StatusCode res)) eqn:Hs.
  - pose proof (parse_good_status res Hs) as Hp.
    apply statusOK_range in Hs.
    assert (∀ msg, parseUpcomingMoviesResponse decode res ≠ Err (Errorf msg))
      as Hne.
    { intros msg. rewrite Hp. destruct (Body res) as [blob|m]; [|done].
      by destruct (decode blob newPage). }
    split; [|split].
    + split; [by intros ?%Hne|done].
    + by intros msg ?%Hne.
    + intros blob page _ Hb Hd. by rewrite Hp, Hb, Hd.
  - pose proof (parse_bad_status res Hs) as Hp.
    assert (¬ (200 ≤ StatusCode res ≤ 299)) as Hout.
    { intros H%statusOK_range. congruence. }
    split; [|split].
    + done.
    + intros msg. rewrite Hp. by intros [= <-].
    + intros blob page Hin. by destruct Hout.
Qed.
End ParserFacts.

Lemma parseUpcomingMoviesResponse_spec_witness :
  parseUpcomingMoviesResponse (scripted_decode bodies) (ok_response "body0")
  = Ok newPage ∧ Movies newPage = [] ∧ GetNextURL (Some (Links newPage)) = "".
Proof.
  split; [|done].
  apply (proj2 (proj2 (parseUpcomingMoviesResponse_spec (scripted_decode bodies)
                         (ok_response "body0"))) "body0" newPage).
  - simpl. lia.
  - reflexivity.
  - reflexivity.
Defined.

Example parse_not_found :
  parseUpcomingMoviesResponse (scripted_decode bodies)
    {| StatusCode := 404; Status := "404 Not Found"; Body := Readable "body1" |}
  = Err (Errorf "404 Not Found").
Proof. reflexivity. Qed.

Example parse_garbage :
  parseUpcomingMoviesResponse (scripted_decode bodies) (ok_response "<html>")
  = Err (UnmarshalError "invalid character").
Proof. reflexivity. Qed.

(** ** Pagination engine *)

(** URL construction returns no error, for any client and any query,
    the nil query included. *)
Lemma makeUpcomingMoviesURL_total (c : Client) (query : option UpcomingMovieSearch) :
  ∃ fullURL, makeUpcomingMoviesURL c query = Ok fullURL.
Proof. unfold makeUpcomingMoviesURL. by eexists. Qed.

Lemma index_next_entry (page : UpcomingMoviesResultPage) :
  index (Links page) "next" = default "" (next_entry page).
Proof. unfold index, next_entry. by destruct (Links page). Qed.

Section EngineFacts.
Context {World : Type}.
Variable http_Get : World → string → result Response * World.
Variable decode :
  string → UpcomingMoviesResultPage → string + UpcomingMoviesResultPage.

Local Abbreviation select := (select http_Get decode).
Local Abbreviation loop := (loop http_Get decode).
Local Abbreviation fetch := (fetch http_Get decode).
Local Abbreviation serves := (serves http_Get decode).

(** One tick on a fetch that yields a page: the page is sent and the
    cursor moves to the value at "next"; the loop goes on iff that value
    is not empty. *)
Lemma select_tick_page (g : Goroutine) (page : UpcomingMoviesResultPage) :
  (fetch (world g) (dataURL g)).1 = Ok page →
  select RecvTick g =
  mkGoroutine (index (Links page) "next")
              (working g && negb (String.eqb (index (Links page) "next") ""))
              (fetch (world g) (dataURL g)).2
              (requests g ++ [dataURL g]) (pagesChan g ++ [page]).
Proof.
  unfold fetch, select, get.
  destruct (http_Get (world g) (dataURL g)) as [[res|err] w]; simpl; [|done].
  intros ->. unfold stop, send, setURL. simpl.
  destruct (String.eqb (index (Links page) "next") ""); simpl;
    by rewrite ?andb_true_r, ?andb_false_r.
Qed.

(** One tick on a fetch that fails, in the transport or in the parser:
    nothing is sent and the loop is left. *)
Lemma select_tick_error (g : Goroutine) (err : error) :
  (fetch (world g) (dataURL g)).1 = Err err →
  select RecvTick g =
  mkGoroutine (dataURL g) false (fetch (world g) (dataURL g)).2
              (requests g ++ [dataURL g]) (pagesChan g).
Proof.
  unfold fetch, select, get.
  destruct (http_Get (world g) (dataURL g)) as [[res|e] w]; simpl; [|done].
  by intros ->.
Qed.

Lemma loop_stopped query events (g : Goroutine) :
  working g = false → loop query events g = Closed g.
Proof. intros H. destruct events; simpl; by rewrite H. Qed.

(** The cancel case leaves the goroutine as it is. *)
Lemma loop_cancel (q : UpcomingMovieSearch) events (g : Goroutine) :
  loop (Some q) (RecvCancel :: events) g = loop (Some q) events g.
Proof.
  simpl. destruct (working g) eqn:Hw.
  - by destruct (Cancel q).
  - by rewrite loop_stopped.
Qed.

Lemma loop_tick (q : UpcomingMovieSearch) events (g : Goroutine) :
  working g = true →
  loop (Some q) (RecvTick :: events) g = loop (Some q) events (select RecvTick g).
Proof. intros Hw. simpl. rewrite Hw. by destruct (Cancel q). Qed.

Lemma UpcomingMovies_no_key (c : Client) (query : option UpcomingMovieSearch)
    (w : World) :
  APIKey c = "" → UpcomingMovies c query w = Err errEmptyAPIKey.
Proof. intros Hk. unfold UpcomingMovies. by apply eqb_empty_true in Hk as ->. Qed.

Lemma UpcomingMovies_start (c : Client) (query : option UpcomingMovieSearch)
    (w : World) (fullURL : string) :
  APIKey c ≠ "" → makeUpcomingMoviesURL c query = Ok fullURL →
  UpcomingMovies c query w = Ok (mkGoroutine fullURL true w [] []).
Proof.
  intros Hk Hurl. unfold UpcomingMovies. rewrite Hurl.
  by apply eqb_empty_false in Hk as ->.
Qed.

(** C9. [UpcomingMovies] returns an error exactly when the stored API
    key is empty; the error is then the empty-API-key error, and no
    goroutine is started, so nothing is fetched. URL construction
    returns no error, and with a non-empty key the goroutine starts on
    the URL built, with no request made and no page sent yet. *)
Theorem UpcomingMovies_empty_key (c : Client)
    (query : option UpcomingMovieSearch) (w : World) :
  (UpcomingMovies c query w = Err errEmptyAPIKey ↔ APIKey c = "") ∧
  (∀ err, UpcomingMovies c query w = Err err →
          err = errEmptyAPIKey ∧ APIKey c = "") ∧
  (∃ fullURL,
      makeUpcomingMoviesURL c query = Ok fullURL ∧
      (APIKey c ≠ "" →
       UpcomingMovies c query w = Ok (mkGoroutine fullURL true w [] []))).
Proof.
  destruct (makeUpcomingMoviesURL_total c query) as [fullURL Hurl].
  destruct (decide (APIKey c = "")) as [Hk|Hk].
  - rewrite (UpcomingMovies_no_key c query w Hk).
    split; [done|]. split; [by intros err [= <-]|].
    exists fullURL. split; [done|]. by intros [].
  - rewrite (UpcomingMovies_start c query w fullURL Hk Hurl).
    split; [done|]. split; [done|]. by exists fullURL.
Qed.

(** C10. With a non-empty API key and the nil query, the URL builder
    returns the URL with the API key as its only parameter and
    [UpcomingMovies] starts the goroutine on it; the goroutine then
    dereferences the nil query on entering the select and panics,
    whatever the select would have received, with no request made. *)
Theorem UpcomingMovies_nil_query (c : Client) (w : World)
    (events : list SelectCase) :
  APIKey c ≠ "" →
  ∃ g,
    makeUpcomingMoviesURL c None = Ok (dataURL g) ∧
    dataURL g = baseURL +:+ "/v" +:+ APIVersion c
                        +:+ "/lists/movies/upcoming/json?apikey="
                        +:+ QueryEscape (apiKey c) ∧
    UpcomingMovies c None w = Ok g ∧
    loop None events g = Panicked g ∧
    requests g = [] ∧ pagesChan g = [].
Proof.
  intros Hk.
  destruct (makeUpcomingMoviesURL_total c None) as [fullURL Hurl].
  exists (mkGoroutine fullURL true w [] []). simpl.
  split; [done|]. split.
  - unfold makeUpcomingMoviesURL in Hurl. injection Hurl as <-.
    by destruct c.
  - split; [by apply UpcomingMovies_start|]. by destruct events.
Qed.

Lemma ticks_cancel events : ticks (RecvCancel :: events) = ticks events.
Proof. reflexivity. Qed.

Lemma ticks_tick events : ticks (RecvTick :: events) = S (ticks events).
Proof. reflexivity. Qed.

(** Only the ticks among the select cases matter to the goroutine. *)
Lemma loop_ticks (q : UpcomingMovieSearch) events (g : Goroutine) :
  loop (Some q) events g = loop (Some q) (repeat RecvTick (ticks events)) g.
Proof.
  revert g. induction events as [|[|] events IH]; intros g.
  - done.
  - by rewrite loop_cancel, ticks_cancel.
  - rewrite ticks_tick. simpl repeat.
    destruct (working g) eqn:Hw.
    + by rewrite !loop_tick.
    + by rewrite !loop_stopped.
Qed.

Lemma select_tick_requests (g : Goroutine) :
  requests (select RecvTick g) = requests g ++ [dataURL g].
Proof.
  destruct (fetch (world g) (dataURL g)).1 as [page|err] eqn:Hf.
  - by rewrite (select_tick_page g page Hf).
  - by rewrite (select_tick_error g err Hf).
Qed.

(** The goroutine walks a chain of pages whose "next" values are not
    empty, sends them in order, and closes the channel. *)
Lemma loop_serves (q : UpcomingMovieSearch) pages :
  ∀ (n : nat) (g : Goroutine),
    working g = true →
    serves (world g) (dataURL g) pages →
    Forall (λ page, next_entry page ≠ Some "") pages →
    (length pages ≤ n)%nat →
    ∃ g', loop (Some q) (repeat RecvTick n) g = Closed g' ∧
          pagesChan g' = pagesChan g ++ pages ∧
          length (requests g') = (length (requests g) + length pages)%nat.
Proof.
  induction pages as [|page rest IH]; intros n g Hw Hs Hne Hn; [done|].
  destruct Hs as [Hf Hs]. apply Forall_cons in Hne as [Hp Hne].
  destruct n as [|n]; [simpl in Hn; lia|]. simpl in Hn.
  simpl repeat. rewrite loop_tick by done.
  rewrite (select_tick_page g page Hf), Hw, index_next_entry. simpl andb.
  destruct (next_entry page) as [u'|] eqn:Hnext, rest as [|page' rest'];
    try done.
  - simpl default.
    assert (String.eqb u' "" = false) as ->
        by (apply eqb_empty_false; congruence).
    destruct (IH n (mkGoroutine u' true (fetch (world g) (dataURL g)).2
                      (requests g ++ [dataURL g]) (pagesChan g ++ [page])))
      as (g' & Hloop & Hsent & Hreq); [done|exact Hs|exact Hne|lia|].
    exists g'. split; [exact Hloop|].
    rewrite Hsent, Hreq. simpl.
    rewrite <- app_assoc, length_app. simpl. split; [done|lia].
  - simpl. rewrite loop_stopped by done.
    eexists. split; [done|]. simpl. rewrite length_app. simpl. split; [done|lia].
Qed.

(** C1, as the code has it. For a query whose cancellation never fires and
    a transport that serves N pages, each with a non-empty "next" value
    leading to the following page, and then one page without a "next"
    entry, the goroutine started by [UpcomingMovies] sends exactly these
    N+1 pages, in the order of the chain, and then closes the channel,
    without a panic; the channel carries pages only. *)
Theorem UpcomingMovies_emits_chain (c : Client) (q : UpcomingMovieSearch)
    (w : World) (fullURL : string) (pages : list UpcomingMoviesResultPage)
    (events : list SelectCase) :
  APIKey c ≠ "" →
  makeUpcomingMoviesURL c (Some q) = Ok fullURL →
  serves w fullURL pages →
  Forall (λ page, next_entry page ≠ Some "") pages →
  Forall (λ ev, ev = RecvTick) events →
  (length pages ≤ length events)%nat →
  ∃ g0 g,
    UpcomingMovies c (Some q) w = Ok g0 ∧
    loop (Some q) events g0 = Closed g ∧
    pagesChan g = pages ∧
    length (requests g) = length pages.
Proof.
  intros Hk Hurl Hs Hne Hev Hlen.
  exists (mkGoroutine fullURL true w [] []).
  assert (events = repeat RecvTick (length events)) as Hrep.
  { clear -Hev. induction Hev as [|ev events -> _ IH]; simpl; [done|].
    by rewrite <- IH. }
  destruct (loop_serves q pages (length events) (mkGoroutine fullURL true w [] []))
    as (g & Hloop & Hsent & Hreq); try done.
  exists g. rewrite Hrep. split; [by apply UpcomingMovies_start|]. by split.
Qed.

(** The way a pass of the loop can leave the loop. *)
Lemma select_stops_iff (ev : SelectCase) (g : Goroutine) :
  working g = true →
  (working (select ev g) = false
   ↔ ev = RecvTick ∧
     ((∃ err, (fetch (world g) (dataURL g)).1 = Err err) ∨
      (∃ page, (fetch (world g) (dataURL g)).1 = Ok page ∧
               index (Links page) "next" = ""))).
Proof.
  intros Hw. destruct ev.
  - simpl. rewrite Hw. split; [done|]. by intros [? _].
  - destruct (fetch (world g) (dataURL g)).1 as [page|err] eqn:Hf.
    + rewrite (select_tick_page g page Hf), Hw. simpl.
      rewrite negb_false_iff, eqb_empty_true. split.
      * intros Hi. split; [done|]. right. by exists page.
      * intros [_ [[err [=]]|(page' & [= <-] & Hi)]]. done.
    + rewrite (select_tick_error g err Hf). simpl. split; [|done].
      intros _. split; [done|]. left. by exists err.
Qed.

(** C4, as the code has it. A running goroutine leaves the loop only in a
    tick, and there only on a transport or parse error or when the link
    resolver returns the empty string for the page just sent, which it
    does when the links map is nil, has no "next" key, or holds the empty
    string there. For every page sent whose "next" value is not empty,
    the goroutine keeps running and the next tick fetches that URL. *)
Theorem select_stops_only_on_empty_next (ev : SelectCase) (g : Goroutine)
    (page : UpcomingMoviesResultPage) :
  working g = true →
  (working (select ev g) = false
   ↔ ev = RecvTick ∧
     ((∃ err, (fetch (world g) (dataURL g)).1 = Err err) ∨
      (∃ page, (fetch (world g) (dataURL g)).1 = Ok page ∧
               GetNextURL (Some (Links page)) = ""))) ∧
  (GetNextURL (Some (Links page)) = ""
   ↔ Links page = None ∨ next_entry page = None ∨ next_entry page = Some "") ∧
  (∀ x, (fetch (world g) (dataURL g)).1 = Ok page →
        next_entry page = Some x → x ≠ "" →
        working (select RecvTick g) = true ∧
        dataURL (select RecvTick g) = x ∧
        pagesChan (select RecvTick g) = pagesChan g ++ [page] ∧
        requests (select RecvTick (select RecvTick g))
        = requests g ++ [dataURL g; x]).
Proof.
  intros Hw. split; [by apply select_stops_iff|]. split.
  - simpl. rewrite index_next_entry. unfold next_entry.
    destruct (Links page) as [m|]; simpl; [|naive_solver].
    destruct (m !! "next") as [x|]; simpl; naive_solver.
  - intros x Hf Hnext Hx.
    rewrite select_tick_requests, (select_tick_page g page Hf), Hw.
    rewrite index_next_entry, Hnext. simpl.
    apply eqb_empty_false in Hx as ->. by rewrite <- app_assoc.
Qed.

(** C5. If the first fetch yields a page that links to a second URL and
    the transport answers that URL with a status outside [200,299], then
    once two ticks have fired the goroutine has sent exactly the first
    page and closed the channel; the channel carries pages only, so no
    error is delivered. *)
Theorem UpcomingMovies_bad_status_page2 (c : Client) (q : UpcomingMovieSearch)
    (w : World) (g0 : Goroutine) (page : UpcomingMoviesResultPage)
    (u2 : string) (res2 : Response) (events : list SelectCase) :
  UpcomingMovies c (Some q) w = Ok g0 →
  (fetch w (dataURL g0)).1 = Ok page →
  next_entry page = Some u2 →
  (http_Get (fetch w (dataURL g0)).2 u2).1 = Ok res2 →
  statusOK (StatusCode res2) = false →
  (2 ≤ ticks events)%nat →
  ∃ g, loop (Some q) events g0 = Closed g ∧ pagesChan g = [page].
Proof.
  intros Hstart Hf Hnext Hget Hbad Hn.
  assert (working g0 = true ∧ world g0 = w ∧ pagesChan g0 = []) as (Hw & Hwd & Hs).
  { unfold UpcomingMovies in Hstart.
    destruct (String.eqb (APIKey c) ""); [done|].
    destruct (makeUpcomingMoviesURL c (Some q)); by simplify_eq. }
  rewrite loop_ticks.
  destruct (ticks events) as [|[|n]]; [lia..|]. simpl repeat.
  rewrite loop_tick by done. rewrite <- Hwd in Hf, Hget.
  rewrite (select_tick_page g0 page Hf), Hw, Hs, index_next_entry, Hnext.
  simpl andb. simpl default. destruct (String.eqb u2 "") eqn:Hu2; simpl negb.
  - rewrite loop_stopped by done. by eexists.
  - rewrite loop_tick by done.
    erewrite select_tick_error.
    + rewrite loop_stopped by done. by eexists.
    + simpl. unfold fetch at 1.
      destruct (http_Get _ u2) as [r w2]. simpl in Hget. subst r. simpl.
      by apply parse_bad_status.
Qed.
End EngineFacts.

(** *** The engine on the scripted transport *)

Lemma UpcomingMovies_empty_key_witness :
  UpcomingMovies {| version := ""; apiKey := "" |} (Some demo_query) tt
  = Err errEmptyAPIKey.
Proof.
  apply (proj1 (UpcomingMovies_empty_key {| version := ""; apiKey := "" |}
                  (Some demo_query) tt)).
  reflexivity.
Defined.

Lemma UpcomingMovies_nil_query_witness :
  ∃ g : Goroutine,
    makeUpcomingMoviesURL demo_client None = Ok (dataURL g) ∧
    dataURL g = baseURL +:+ "/v" +:+ APIVersion demo_client
                        +:+ "/lists/movies/upcoming/json?apikey="
                        +:+ QueryEscape (apiKey demo_client) ∧
    UpcomingMovies demo_client None tt = Ok g ∧
    loop (scripted_Get routes_two_pages) (scripted_decode bodies) None
         [RecvTick; RecvTick] g = Panicked g ∧
    requests g = [] ∧ pagesChan g = [].
Proof.
  apply (UpcomingMovies_nil_query (scripted_Get routes_two_pages)
           (scripted_decode bodies) demo_client tt [RecvTick; RecvTick]).
  discriminate.
Defined.

(** The scenario of two linked pages: both arrive, in order. *)
Lemma UpcomingMovies_emits_chain_witness :
  ∃ g0 g : Goroutine,
    UpcomingMovies demo_client (Some demo_query) tt = Ok g0 ∧
    loop (scripted_Get routes_two_pages) (scripted_decode bodies)
         (Some demo_query) [RecvTick; RecvTick] g0 = Closed g ∧
    pagesChan g = [page1; page2] ∧
    length (requests g) = length [page1; page2].
Proof.
  apply (UpcomingMovies_emits_chain (scripted_Get routes_two_pages)
           (scripted_decode bodies) demo_client demo_query tt demo_URL
           [page1; page2] [RecvTick; RecvTick]).
  - discriminate.
  - vm_compute. reflexivity.
  - vm_compute. repeat split.
  - repeat constructor; vm_compute; discriminate.
  - repeat constructor.
  - simpl. lia.
Defined.

(** C1, as stated, fails: page 1 carries the entry "next" with the empty
    URL, at which the transport serves page 2, which has no "next" entry;
    no cancellation fires; the goroutine sends page 1 only and closes. *)
Lemma UpcomingMovies_emits_chain_counterexample :
  serves (scripted_Get routes_empty_next) (scripted_decode bodies) tt demo_URL
         [page_empty_next; page2] ∧
  UpcomingMovies demo_client (Some demo_query) tt
  = Ok (mkGoroutine demo_URL true tt [] []) ∧
  loop (scripted_Get routes_empty_next) (scripted_decode bodies)
       (Some demo_query) [RecvTick; RecvTick; RecvTick]
       (mkGoroutine demo_URL true tt [] [])
  = Closed (mkGoroutine "" false tt [demo_URL] [page_empty_next]).
Proof.
  split; [|split].
  - vm_compute. repeat split.
  - vm_compute. reflexivity.
  - vm_compute. reflexivity.
Qed.

Lemma select_stops_only_on_empty_next_witness :
  working (select (scripted_Get routes_two_pages) (scripted_decode bodies)
             RecvTick (mkGoroutine demo_URL true tt [] [])) = true ∧
  dataURL (select (scripted_Get routes_two_pages) (scripted_decode bodies)
             RecvTick (mkGoroutine demo_URL true tt [] [])) = "url2" ∧
  pagesChan (select (scripted_Get routes_two_pages) (scripted_decode bodies)
               RecvTick (mkGoroutine demo_URL true tt [] [])) = [] ++ [page1] ∧
  requests (select (scripted_Get routes_two_pages) (scripted_decode bodies)
              RecvTick
              (select (scripted_Get routes_two_pages) (scripted_decode bodies)
                 RecvTick (mkGoroutine demo_URL true tt [] [])))
  = [] ++ [demo_URL; "url2"].
Proof.
  apply (proj2 (proj2
           (select_stops_only_on_empty_next (scripted_Get routes_two_pages)
              (scripted_decode bodies) RecvTick
              (mkGoroutine demo_URL true tt [] []) page1 eq_refl)) "url2").
  - vm_compute. reflexivity.
  - vm_compute. reflexivity.
  - discriminate.
Defined.

(** C4, as stated, fails: the page sent has the key "next" in its links
    map, with the empty string as its value, and the goroutine leaves the
    loop. *)
Lemma select_stops_counterexample :
  (fetch (scripted_Get routes_empty_next) (scripted_decode bodies) tt demo_URL).1
  = Ok page_empty_next ∧
  (∃ m, Links page_empty_next = Some m ∧ "next" ∈ dom m) ∧
  select (scripted_Get routes_empty_next) (scripted_decode bodies) RecvTick
         (mkGoroutine demo_URL true tt [] [])
  = mkGoroutine "" false tt [demo_URL] [page_empty_next].
Proof.
  split; [|split].
  - vm_compute. reflexivity.
  - eexists. split; [reflexivity|]. rewrite dom_singleton_L. set_solver.
  - vm_compute. reflexivity.
Qed.

Lemma UpcomingMovies_bad_status_page2_witness :
  ∃ g : Goroutine,
    loop (scripted_Get routes_bad_page2) (scripted_decode bodies)
         (Some demo_query) [RecvTick; RecvTick]
         (mkGoroutine demo_URL true tt [] []) = Closed g ∧
    pagesChan g = [page1].
Proof.
  apply (UpcomingMovies_bad_status_page2 (scripted_Get routes_bad_page2)
           (scripted_decode bodies) demo_client demo_query tt
           (mkGoroutine demo_URL true tt [] []) page1 "url2"
           {| StatusCode := 500; Status := "500 Internal Server Error";
              Body := Readable "" |} [RecvTick; RecvTick]).
  - vm_compute. reflexivity.
  - vm_compute. reflexivity.
  - vm_compute. reflexivity.
  - vm_compute. reflexivity.
  - reflexivity.
  - vm_compute. lia.
Defined.

(** C2 on the code. The cancellation channel of the query delivers before
    the first tick. The cancel case only leaves the select: the goroutine
    is still in its loop with the channel open, and at the tick that
    follows it fetches the page, sends it and only then closes. *)
Theorem cancel_before_first_tick_is_ignored :
  ready cancellable_query RecvCancel = true ∧
  UpcomingMovies demo_client (Some cancellable_query) tt
  = Ok (mkGoroutine demo_URL true tt [] []) ∧
  loop (scripted_Get routes_last_page) (scripted_decode bodies)
       (Some cancellable_query) [RecvCancel]
       (mkGoroutine demo_URL true tt [] [])
  = Waiting (mkGoroutine demo_URL true tt [] []) ∧
  loop (scripted_Get routes_last_page) (scripted_decode bodies)
       (Some cancellable_query) [RecvCancel; RecvTick]
       (mkGoroutine demo_URL true tt [] [])
  = Closed (mkGoroutine "" false tt [demo_URL] [page2]).
Proof. repeat split; vm_compute; reflexivity. Qed.

(** * Further properties of the package *)

(** ** Configuration *)

(** X1. The API version read back is the one stored by [SetVersion],
    except that the empty version reads as the default "1.0"; so
    [APIVersion] never returns the empty string. [SetVersion] leaves the
    API key alone. *)
Theorem APIVersion_SetVersion (c : Client) (v : string) :
  (v ≠ "" → APIVersion (SetVersion c v) = v) ∧
  APIVersion (SetVersion c "") = "1.0" ∧
  APIVersion c ≠ "" ∧
  APIKey (SetVersion c v) = APIKey c.
Proof.
  unfold APIVersion, SetVersion. simpl. split; [|split; [done|split; [|done]]].
  - by intros ->%eqb_empty_false.
  - destruct (String.eqb (version c) "") eqn:Hv; [done|].
    by apply eqb_empty_false.
Qed.

Lemma APIVersion_SetVersion_witness :
  APIVersion (SetVersion demo_client "2.0") = "2.0".
Proof. apply (proj1 (APIVersion_SetVersion demo_client "2.0")). discriminate. Defined.

Section ClientFacts.
Variable TrimSpace : string → string.

(** X2. A client that [NewDefaultClient] returns has a non-empty API key
    and the default API version, and [UpcomingMovies] on it does not fail:
    it starts its goroutine, for any query and with no request made. *)
Theorem NewDefaultClient_usable (env : gmap string string) (keys : list string)
    (client : Client) :
  NewDefaultClient TrimSpace env keys = Ok client →
  APIKey client ≠ "" ∧
  APIVersion client = "1.0" ∧
  ∀ (World : Type) (w : World) (query : option UpcomingMovieSearch),
    ∃ fullURL,
      makeUpcomingMoviesURL client query = Ok fullURL ∧
      UpcomingMovies client query w = Ok (mkGoroutine fullURL true w [] []).
Proof.
  unfold NewDefaultClient.
  destruct (String.eqb (APIKey _) "") eqn:Hk; [done|]. intros [= <-].
  apply eqb_empty_false in Hk. split; [done|]. split; [done|].
  intros World w query.
  destruct (makeUpcomingMoviesURL_total
              (SetAPIKey TrimSpace newClient
                 (envOrDefault TrimSpace env "FANDANGO_API_KEY" keys)) query)
    as [fullURL Hurl].
  exists fullURL. split; [done|]. by apply UpcomingMovies_start.
Qed.

(** X3. After [SetAPIKey], [UpcomingMovies] fails with the empty-API-key
    error exactly when the key given is blank, that is, empty once trimmed;
    the stored key is the trimmed one and the API version is unchanged. *)
Theorem SetAPIKey_blank (c : Client) (key : string) (World : Type) (w : World)
    (query : option UpcomingMovieSearch) :
  (UpcomingMovies (SetAPIKey TrimSpace c key) query w = Err errEmptyAPIKey
   ↔ TrimSpace key = "") ∧
  APIKey (SetAPIKey TrimSpace c key) = TrimSpace key ∧
  APIVersion (SetAPIKey TrimSpace c key) = APIVersion c.
Proof.
  split; [|done].
  destruct (decide (TrimSpace key = "")) as [Hk|Hk].
  - by rewrite (UpcomingMovies_no_key (SetAPIKey TrimSpace c key) query w Hk).
  - destruct (makeUpcomingMoviesURL_total (SetAPIKey TrimSpace c key) query)
      as [fullURL Hurl].
    by rewrite (UpcomingMovies_start (SetAPIKey TrimSpace c key) query w fullURL Hk Hurl).
Qed.
End ClientFacts.

Lemma NewDefaultClient_usable_witness :
  APIKey {| version := ""; apiKey := "key1" |} ≠ "" ∧
  APIVersion {| version := ""; apiKey := "key1" |} = "1.0" ∧
  ∀ (World : Type) (w : World) (query : option UpcomingMovieSearch),
    ∃ fullURL,
      makeUpcomingMoviesURL {| version := ""; apiKey := "key1" |} query
      = Ok fullURL ∧
      UpcomingMovies {| version := ""; apiKey := "key1" |} query w
      = Ok (mkGoroutine fullURL true w [] []).
Proof.
  apply (NewDefaultClient_usable asciiTrimSpace {[ "FANDANGO_API_KEY" := "  " ]}
           [""; " key1 "; "key2"]).
  reflexivity.
Defined.

(** ** URL builder, for every query *)

Lemma shouldEscape_upperhex (n : N) : shouldEscape (upperhex n) = false.
Proof.
  unfold upperhex. generalize (N.to_nat n). intros k.
  do 16 (destruct k as [|k]; [reflexivity|]). reflexivity.
Qed.

Lemma append_cons (a : ascii) (s t : string) :
  String a s +:+ t = String a (s +:+ t).
Proof. reflexivity. Qed.

Lemma unreserved_app (s t : string) :
  unreserved (s +:+ t) = unreserved s && unreserved t.
Proof.
  induction s as [|a s IH]; [done|].
  rewrite append_cons. simpl. by rewrite IH, andb_assoc.
Qed.

Lemma QueryEscape_unreserved (s : string) :
  unreserved s = true → QueryEscape s = s.
Proof.
  induction s as [|a s IH]; simpl; [done|].
  intros [Ha Hs]%andb_true_iff. apply negb_true_iff in Ha.
  destruct (Ascii.eqb a " ") eqn:Hsp.
  - apply Ascii.eqb_eq in Hsp as ->. done.
  - by rewrite Ha, IH.
Qed.

Lemma unreserved_pretty_N_go (x : N) :
  ∀ s, unreserved s = true → unreserved (pretty_N_go x s) = true.
Proof.
  induction (N.lt_wf_0 x) as [x _ IH]. intros s Hs.
  destruct (decide (x = 0)%N) as [->|Hx].
  - by rewrite pretty_N_go_0.
  - rewrite pretty_N_go_step by lia.
    apply IH; [apply N.div_lt; lia|]. simpl. rewrite Hs, andb_true_r.
    unfold pretty_N_char. by repeat case_match.
Qed.

Lemma unreserved_Sprintf_d (n : Z) : unreserved (Sprintf_d n) = true.
Proof.
  assert (∀ x : N, unreserved (pretty x) = true) as HN.
  { intros x. unfold pretty, pretty_N. case_decide; [done|].
    by apply unreserved_pretty_N_go. }
  unfold Sprintf_d, pretty, pretty_Z. destruct n as [|p|p]; [done|apply HN|].
  rewrite unreserved_app. exact (HN (Npos p)).
Qed.

(** The query string of the request, parameter by parameter. *)
Lemma Encode_upcomingMoviesValues (c : Client) (q : UpcomingMovieSearch) :
  Encode (upcomingMoviesValues c (Some q))
  = "apikey=" +:+ QueryEscape (apiKey c)
    +:+ (if String.eqb (Country q) "" then ""
         else "&country=" +:+ QueryEscape (Country q))
    +:+ (if 0 <? MaxPage q then "&page=" +:+ Sprintf_d (MaxPage q) else "")
    +:+ (if 0 <? ItemsPerPage q
         then "&page_limit=" +:+ Sprintf_d (ItemsPerPage q) else "").
Proof.
  destruct q as [items page country cancel]. simpl.
  pose proof (QueryEscape_unreserved _ (unreserved_Sprintf_d page)) as Hp.
  pose proof (QueryEscape_unreserved _ (unreserved_Sprintf_d items)) as Hi.
  revert Hp Hi. generalize (Sprintf_d page) (Sprintf_d items). intros sp si Hp Hi.
  unfold upcomingMoviesValues, Values_Set. simpl.
  destruct (0 <? items), (0 <? page), (String.eqb country ""); simpl negb; cbv iota;
    unfold Encode;
    match goal with
    | |- context [sortedKeys ?m] =>
        let ks := fresh "ks" in
        let Hks := fresh "Hks" in
        remember (sortedKeys m) as ks eqn:Hks; vm_compute in Hks; subst ks
    end;
    simpl foldl; simplify_map_eq; simpl default;
    rewrite ?Hp, ?Hi, ?append_assoc, ?append_nil_r; reflexivity.
Qed.

(** X4. The URL built for any client and any non-nil query: the endpoint
    for the client's API version, then the escaped API key, then, in this
    order and each only if its field is set, the escaped country (if not
    empty), the page (if positive) and the page size (if positive), both
    in decimal. No error is returned. *)
Theorem makeUpcomingMoviesURL_formula (c : Client) (q : UpcomingMovieSearch) :
  makeUpcomingMoviesURL c (Some q)
  = Ok (baseURL +:+ "/v" +:+ APIVersion c
        +:+ "/lists/movies/upcoming/json?apikey=" +:+ QueryEscape (apiKey c)
        +:+ (if String.eqb (Country q) "" then ""
             else "&country=" +:+ QueryEscape (Country q))
        +:+ (if 0 <? MaxPage q then "&page=" +:+ Sprintf_d (MaxPage q) else "")
        +:+ (if 0 <? ItemsPerPage q
             then "&page_limit=" +:+ Sprintf_d (ItemsPerPage q) else "")).
Proof.
  unfold makeUpcomingMoviesURL. by rewrite Encode_upcomingMoviesValues.
Qed.

(** X5. A query whose page size and page are zero or negative and whose
    country is empty gives the same URL as the nil query: the endpoint
    with the API key as the only parameter. *)
Theorem makeUpcomingMoviesURL_defaults (c : Client) (q : UpcomingMovieSearch) :
  ItemsPerPage q ≤ 0 → MaxPage q ≤ 0 → Country q = "" →
  makeUpcomingMoviesURL c (Some q) = makeUpcomingMoviesURL c None ∧
  makeUpcomingMoviesURL c None
  = Ok (baseURL +:+ "/v" +:+ APIVersion c
        +:+ "/lists/movies/upcoming/json?apikey=" +:+ QueryEscape (apiKey c)).
Proof.
  intros Hi Hp Hc. split; [|by destruct c].
  unfold makeUpcomingMoviesURL. rewrite Encode_upcomingMoviesValues, Hc.
  assert ((0 <? MaxPage q) = false) as -> by (apply Z.ltb_ge; lia).
  assert ((0 <? ItemsPerPage q) = false) as -> by (apply Z.ltb_ge; lia).
  simpl. rewrite !append_nil_r. by destruct c.
Qed.

Lemma makeUpcomingMoviesURL_defaults_witness :
  makeUpcomingMoviesURL demo_client
    (Some {| ItemsPerPage := -5; MaxPage := 0; Country := ""; Cancel := SomeChan |})
  = makeUpcomingMoviesURL demo_client None ∧
  makeUpcomingMoviesURL demo_client None
  = Ok (baseURL +:+ "/v" +:+ APIVersion demo_client
        +:+ "/lists/movies/upcoming/json?apikey="
        +:+ QueryEscape (apiKey demo_client)).
Proof.
  apply (makeUpcomingMoviesURL_defaults demo_client
           {| ItemsPerPage := -5; MaxPage := 0; Country := "";
              Cancel := SomeChan |}); simpl; [lia|lia|reflexivity].
Defined.

Lemma QueryEscape_safe (s : string) :
  Forall (λ c, shouldEscape c = false ∨ c = "%"%char ∨ c = "+"%char)
         (list_ascii_of_string (QueryEscape s)).
Proof.
  induction s as [|a s IH]; simpl; [constructor|].
  destruct (Ascii.eqb a " ").
  - simpl. constructor; auto.
  - destruct (shouldEscape a) eqn:Ha; simpl.
    + constructor; [auto|].
      constructor; [left; apply shouldEscape_upperhex|].
      constructor; [left; apply shouldEscape_upperhex|done].
    + constructor; auto.
Qed.

(** X6. Every byte of an escaped string is a letter, a digit, one of
    [-_.~], or one of the two bytes the escaping itself writes, [%] and
    [+]; and a string made of letters, digits and [-_.~] only is escaped
    to itself. *)
Theorem QueryEscape_bytes (s : string) :
  Forall (λ c, shouldEscape c = false ∨ c = "%"%char ∨ c = "+"%char)
         (list_ascii_of_string (QueryEscape s)) ∧
  (unreserved s = true → QueryEscape s = s).
Proof. split; [apply QueryEscape_safe|apply QueryEscape_unreserved]. Qed.

Lemma QueryEscape_bytes_witness : QueryEscape "a-b_c.d~9Z" = "a-b_c.d~9Z".
Proof. apply (proj2 (QueryEscape_bytes "a-b_c.d~9Z")). reflexivity. Defined.

Lemma count_byte_app (d : ascii) (s t : string) :
  count_byte d (s +:+ t) = (count_byte d s + count_byte d t)%nat.
Proof.
  induction s as [|a s IH]; [done|].
  rewrite append_cons. simpl. rewrite IH. lia.
Qed.

Lemma count_byte_QueryEscape (d : ascii) (s : string) :
  shouldEscape d = true → d ≠ "%"%char → d ≠ "+"%char →
  count_byte d (QueryEscape s) = O.
Proof.
  intros Hd Hpc Hpl.
  assert (∀ l, Forall (λ c, shouldEscape c = false ∨ c = "%"%char ∨ c = "+"%char) l →
               count_byte d (string_of_list_ascii l) = O) as Hcount.
  { induction 1 as [|c l Hc _ IH]; simpl; [done|]. rewrite IH.
    destruct (Ascii.eqb c d) eqn:Hcd; [|done].
    apply Ascii.eqb_eq in Hcd as ->. destruct Hc as [Hc|[Hc|Hc]]; congruence. }
  rewrite <- (string_of_list_ascii_of_string (QueryEscape s)).
  apply Hcount, QueryEscape_safe.
Qed.

Lemma count_byte_Sprintf_d (d : ascii) (n : Z) :
  shouldEscape d = true → d ≠ "%"%char → d ≠ "+"%char →
  count_byte d (Sprintf_d n) = O.
Proof.
  intros. rewrite <- (QueryEscape_unreserved _ (unreserved_Sprintf_d n)).
  by apply count_byte_QueryEscape.
Qed.

(** X7. Whatever the API key and the country are, the query string of the
    request has one [=] per parameter and one [&] between two parameters:
    the values cannot add or split parameters. *)
Theorem Encode_separators (c : Client) (q : UpcomingMovieSearch) :
  let params :=
    (1 + (if String.eqb (Country q) "" then 0 else 1)
       + (if (0 <? MaxPage q)%Z then 1 else 0)
       + (if (0 <? ItemsPerPage q)%Z then 1 else 0))%nat in
  count_byte "=" (Encode (upcomingMoviesValues c (Some q))) = params ∧
  S (count_byte "&" (Encode (upcomingMoviesValues c (Some q)))) = params.
Proof.
  rewrite Encode_upcomingMoviesValues.
  destruct (String.eqb (Country q) ""), (0 <? MaxPage q), (0 <? ItemsPerPage q);
    rewrite !count_byte_app, ?count_byte_QueryEscape, ?count_byte_Sprintf_d by done;
    done.
Qed.

(** ** Response parser, on a 2xx response *)

(** X8. On a response with a status in [200,299] the parser passes on the
    failure of reading the body, or else the failure of the decoder, as
    the error; it returns a page only if the body was read and the
    decoder, started on a fresh zero page, produced that page. *)
Theorem parseUpcomingMoviesResponse_2xx
    (decode : string → UpcomingMoviesResultPage → string + UpcomingMoviesResultPage)
    (res : Response) :
  200 ≤ StatusCode res ≤ 299 →
  (∀ msg, Body res = Broken msg →
          parseUpcomingMoviesResponse decode res = Err (ReadError msg)) ∧
  (∀ blob msg, Body res = Readable blob → decode blob newPage = inl msg →
               parseUpcomingMoviesResponse decode res = Err (UnmarshalError msg)) ∧
  (∀ page, parseUpcomingMoviesResponse decode res = Ok page →
           ∃ blob, Body res = Readable blob ∧ decode blob newPage = inr page).
Proof.
  intros Hs%statusOK_range. rewrite (parse_good_status decode res Hs).
  split; [|split].
  - by intros msg ->.
  - by intros blob msg -> ->.
  - intros page. destruct (Body res) as [blob|msg]; [|done].
    destruct (decode blob newPage) eqn:Hd; [done|].
    intros [= ->]. by exists blob.
Qed.

Lemma parseUpcomingMoviesResponse_2xx_witness :
  parseUpcomingMoviesResponse (scripted_decode bodies)
    {| StatusCode := 204; Status := "204 No Content"; Body := Broken "EOF" |}
  = Err (ReadError "EOF").
Proof.
  apply (proj1 (parseUpcomingMoviesResponse_2xx (scripted_decode bodies)
                  {| StatusCode := 204; Status := "204 No Content";
                     Body := Broken "EOF" |} ltac:(simpl; lia))).
  reflexivity.
Defined.

(** ** Pagination engine, over all runs *)

Section EngineRuns.
Context {World : Type}.
Variable http_Get : World → string → result Response * World.
Variable decode :
  string → UpcomingMoviesResultPage → string + UpcomingMoviesResultPage.

Local Abbreviation select := (select http_Get decode).
Local Abbreviation loop := (loop http_Get decode).
Local Abbreviation fetch := (fetch http_Get decode).
Local Abbreviation serves := (serves http_Get decode).

(** A property kept by every tick of a working goroutine holds at the
    end of every run. *)
Lemma loop_invariant (P : Goroutine → Prop) (q : UpcomingMovieSearch) :
  (∀ g, working g = true → P g → P (select RecvTick g)) →
  ∀ events g, P g → P (goroutine_of (loop (Some q) events g)).
Proof.
  intros Hstep events g. rewrite loop_ticks.
  generalize (ticks events). intros n. revert g.
  induction n as [|n IH]; intros g HP; simpl repeat.
  - simpl. by destruct (working g).
  - destruct (working g) eqn:Hw.
    + rewrite loop_tick by done. by apply IH, Hstep.
    + by rewrite loop_stopped.
Qed.

Lemma loop_requests_bound (q : UpcomingMovieSearch) events (g : Goroutine) :
  (length (requests (goroutine_of (loop (Some q) events g)))
   ≤ length (requests g) + ticks events)%nat.
Proof.
  rewrite loop_ticks. generalize (ticks events). intros n. revert g.
  induction n as [|n IH]; intros g; simpl repeat.
  - simpl. destruct (working g); simpl; lia.
  - destruct (working g) eqn:Hw.
    + rewrite loop_tick by done. etrans; [apply IH|].
      rewrite select_tick_requests, length_app. simpl. lia.
    + rewrite loop_stopped by done. simpl. lia.
Qed.

Lemma makeUpcomingMoviesURL_nonempty (c : Client)
    (query : option UpcomingMovieSearch) (fullURL : string) :
  makeUpcomingMoviesURL c query = Ok fullURL → fullURL ≠ "".
Proof. by intros [= <-]. Qed.

Lemma UpcomingMovies_started (c : Client) (query : option UpcomingMovieSearch)
    (w : World) (g0 : Goroutine) :
  UpcomingMovies c query w = Ok g0 →
  g0 = mkGoroutine (dataURL g0) true w [] [] ∧ dataURL g0 ≠ "" ∧
  makeUpcomingMoviesURL c query = Ok (dataURL g0).
Proof.
  unfold UpcomingMovies. destruct (String.eqb (APIKey c) ""); [done|].
  destruct (makeUpcomingMoviesURL c query) as [u|] eqn:Hu; [|done].
  intros [= <-]. simpl. split; [done|]. split; [|done].
  by eapply makeUpcomingMoviesURL_nonempty.
Qed.

(** X9. In the code as written, receiving from the cancellation channel
    changes nothing: a run has the same outcome as the run in which only
    its ticks fire, however many cancellations are received and wherever
    they fall. *)
Theorem loop_ignores_cancel (q : UpcomingMovieSearch)
    (events : list SelectCase) (g : Goroutine) :
  loop (Some q) events g
  = loop (Some q) (filter (λ ev, ev = RecvTick) events) g.
Proof.
  revert g. induction events as [|[|] events IH]; intros g.
  - done.
  - rewrite loop_cancel. apply IH.
  - change (filter (λ ev, ev = RecvTick) (RecvTick :: events))
      with (RecvTick :: filter (λ ev, ev = RecvTick) events).
    destruct (working g) eqn:Hw.
    + rewrite !loop_tick by done. apply IH.
    + by rewrite !loop_stopped.
Qed.




(** The two bounds on the requests of a goroutine that starts with as
    many requests as pages. *)
Lemma loop_counts_invariant (q : UpcomingMovieSearch) events (g : Goroutine) :
  length (requests g) = length (pagesChan g) → working g = true →
  let g' := goroutine_of (loop (Some q) events g) in
  (length (pagesChan g') ≤ length (requests g'))%nat ∧
  (length (requests g') ≤ S (length (pagesChan g')))%nat ∧
  (working g' = true → length (requests g') = length (pagesChan g')).
Proof.
  intros Hlen Hw.
  apply (loop_invariant
           (λ g', (length (pagesChan g') ≤ length (requests g'))%nat ∧
                  (length (requests g') ≤ S (length (pagesChan g')))%nat ∧
                  (working g' = true →
                   length (requests g') = length (pagesChan g'))) q).
  - clear. intros g Hw (_ & _ & Heq). specialize (Heq Hw).
    destruct (fetch (world g) (dataURL g)).1 as [page|err] eqn:Hf.
    + rewrite (select_tick_page http_Get decode g page Hf). simpl.
      rewrite !length_app. simpl. lia.
    + rewrite (select_tick_error http_Get decode g err Hf). simpl.
      rewrite !length_app. simpl. split; [lia|]. split; [lia|done].
  - split; [lia|]. split; [lia|done].
Qed.

(** X12. At any point of a run of the goroutine that [UpcomingMovies]
    starts, there is at most one request per tick that fired, every page
    sent took one request, at most one request gave no page, and while the
    goroutine is still working every request has given a page. *)
Theorem UpcomingMovies_counts (c : Client) (q : UpcomingMovieSearch) (w : World)
    (g0 : Goroutine) (events : list SelectCase) :
  UpcomingMovies c (Some q) w = Ok g0 →
  let g := goroutine_of (loop (Some q) events g0) in
  (length (pagesChan g) ≤ length (requests g))%nat ∧
  (length (requests g) ≤ ticks events)%nat ∧
  (length (requests g) ≤ S (length (pagesChan g)))%nat ∧
  (working g = true → length (requests g) = length (pagesChan g)).
Proof.
  intros (Hg0 & _ & _)%UpcomingMovies_started. intros g.
  destruct (loop_counts_invariant q events g0) as (H1 & H2 & H3);
    [by rewrite Hg0..|].
  pose proof (loop_requests_bound q events g0) as Hb.
  rewrite Hg0 in Hb at 2. simpl in Hb. done.
Qed.

(** X13. The first request of the goroutine that [UpcomingMovies] starts
    is for the URL built from the query, and each later request is for
    the "next" URL of the page sent just before, page after page; the
    empty URL is never requested. While the goroutine is working, its
    cursor is the URL that comes next in that sequence. *)
Theorem UpcomingMovies_requests (c : Client) (q : UpcomingMovieSearch) (w : World)
    (g0 : Goroutine) (events : list SelectCase) :
  UpcomingMovies c (Some q) w = Ok g0 →
  let g := goroutine_of (loop (Some q) events g0) in
  requests g `prefix_of` dataURL g0 :: map nextURL (pagesChan g) ∧
  Forall (λ u, u ≠ "") (requests g) ∧
  (working g = true →
   requests g ++ [dataURL g] = dataURL g0 :: map nextURL (pagesChan g)).
Proof.
  intros (Hg0 & Hne & _)%UpcomingMovies_started. intros g.
  set (u0 := dataURL g0) in *.
  assert (Forall (λ u, u ≠ "") (requests g) ∧
          (working g = true → dataURL g ≠ "") ∧
          (requests g ++ [dataURL g] = u0 :: map nextURL (pagesChan g) ∨
           (working g = false ∧ requests g = u0 :: map nextURL (pagesChan g))))
    as (Hreq & _ & Hchain).
  { apply (loop_invariant
             (λ g, Forall (λ u, u ≠ "") (requests g) ∧
                   (working g = true → dataURL g ≠ "") ∧
                   (requests g ++ [dataURL g] = u0 :: map nextURL (pagesChan g) ∨
                    (working g = false ∧
                     requests g = u0 :: map nextURL (pagesChan g)))) q).
    - clear. intros g Hw (Hreq & Hurl & Hchain). specialize (Hurl Hw).
      destruct Hchain as [Hchain|[Hw' _]]; [|congruence].
      destruct (fetch (world g) (dataURL g)).1 as [page|err] eqn:Hf.
      + rewrite (select_tick_page http_Get decode g page Hf), Hw. simpl.
        split; [apply Forall_app; by repeat constructor|]. split.
        * by intros ?%negb_true_iff%eqb_empty_false.
        * left. by rewrite Hchain, map_app.
      + rewrite (select_tick_error http_Get decode g err Hf). simpl.
        split; [apply Forall_app; by repeat constructor|]. split; [done|].
        by right.
    - rewrite Hg0. simpl. split; [constructor|]. split; [done|]. by left. }
  split; [|split; [done|]].
  - destruct Hchain as [Hchain|[_ ->]]; [|done].
    rewrite <- Hchain. by apply prefix_app_r.
  - intros Hw. destruct Hchain as [Hchain|[Hw' _]]; [done|congruence].
Qed.


(** X15. If the first fetch fails, in the transport or in the parser,
    then as soon as one tick has fired the goroutine that
    [UpcomingMovies] started has closed the channel with no page sent,
    after that single request. *)
Theorem UpcomingMovies_first_fetch_fails (c : Client) (q : UpcomingMovieSearch)
    (w : World) (g0 : Goroutine) (err : error) (events : list SelectCase) :
  UpcomingMovies c (Some q) w = Ok g0 →
  (fetch w (dataURL g0)).1 = Err err →
  (1 ≤ ticks events)%nat →
  ∃ g, loop (Some q) events g0 = Closed g ∧
       pagesChan g = [] ∧ requests g = [dataURL g0].
Proof.
  intros (Hg0 & _ & _)%UpcomingMovies_started Hf Hn.
  assert (working g0 = true ∧ world g0 = w ∧ requests g0 = [] ∧ pagesChan g0 = [])
    as (Hw & Hwd & Hr & Hp) by (by rewrite Hg0).
  rewrite loop_ticks. destruct (ticks events) as [|n]; [lia|]. simpl repeat.
  rewrite loop_tick by done. rewrite <- Hwd in Hf.
  rewrite (select_tick_error http_Get decode g0 err Hf), Hr, Hp.
  rewrite loop_stopped by done. by eexists.
Qed.

(** X16. Along a chain of pages with non-empty "next" values that ends in
    a page without one, after k ticks, for k less than the number of
    pages, the goroutine that [UpcomingMovies] started is waiting for the
    next tick and has sent exactly the first k pages, in order. *)
Theorem UpcomingMovies_progress (c : Client) (q : UpcomingMovieSearch)
    (w : World) (g0 : Goroutine) (pages : list UpcomingMoviesResultPage)
    (events : list SelectCase) :
  UpcomingMovies c (Some q) w = Ok g0 →
  serves w (dataURL g0) pages →
  Forall (λ page, next_entry page ≠ Some "") pages →
  (ticks events < length pages)%nat →
  ∃ g, loop (Some q) events g0 = Waiting g ∧
       pagesChan g = take (ticks events) pages ∧
       length (requests g) = ticks events.
Proof.
  intros (Hg0 & _ & _)%UpcomingMovies_started Hs Hne Hn.
  rewrite loop_ticks. revert Hn. generalize (ticks events). intros n Hn.
  assert (∀ pages n (g : Goroutine),
            working g = true → serves (world g) (dataURL g) pages →
            Forall (λ page, next_entry page ≠ Some "") pages →
            (n < length pages)%nat →
            ∃ g', loop (Some q) (repeat RecvTick n) g = Waiting g' ∧
                  pagesChan g' = pagesChan g ++ take n pages ∧
                  length (requests g') = (length (requests g) + n)%nat) as Hgen.
  { clear. induction pages as [|page rest IH]; intros n g Hw Hs Hne Hn;
      [simpl in Hn; lia|].
    destruct n as [|n].
    { exists g. simpl. rewrite Hw, app_nil_r. split; [done|]. split; [done|lia]. }
    destruct Hs as [Hf Hs]. apply Forall_cons in Hne as [Hp Hne].
    simpl in Hn. simpl repeat. rewrite loop_tick by done.
    rewrite (select_tick_page http_Get decode g page Hf), Hw, index_next_entry.
    simpl andb.
    destruct (next_entry page) as [u'|] eqn:Hnext, rest as [|page' rest'];
      try done; [|simpl in Hn; lia].
    simpl default.
    assert (String.eqb u' "" = false) as ->
        by (apply eqb_empty_false; congruence).
    destruct (IH n (mkGoroutine u' true (fetch (world g) (dataURL g)).2
                      (requests g ++ [dataURL g]) (pagesChan g ++ [page])))
      as (g' & Hloop & Hsent & Hreq); [done|exact Hs|exact Hne|lia|].
    exists g'. split; [exact Hloop|]. rewrite Hsent, Hreq. simpl.
    rewrite <- app_assoc, length_app. simpl. split; [done|lia]. }
  destruct (Hgen pages n g0) as (g & Hloop & Hsent & Hreq);
    [by rewrite Hg0..|done|done|].
  exists g. split; [done|]. rewrite Hsent, Hreq, Hg0. by simpl.
Qed.
End EngineRuns.

(** *** Runs on the scripted transport *)


Lemma UpcomingMovies_counts_witness :
  let g := goroutine_of
             (loop (scripted_Get routes_bad_page2) (scripted_decode bodies)
                (Some cancellable_query)
                [RecvTick; RecvCancel; RecvTick; RecvTick]
                (mkGoroutine demo_URL true tt [] [])) in
  (length (pagesChan g) ≤ length (requests g))%nat ∧
  (length (requests g) ≤ ticks [RecvTick; RecvCancel; RecvTick; RecvTick])%nat ∧
  (length (requests g) ≤ S (length (pagesChan g)))%nat ∧
  (working g = true → length (requests g) = length (pagesChan g)).
Proof.
  apply (UpcomingMovies_counts (scripted_Get routes_bad_page2)
           (scripted_decode bodies) demo_client cancellable_query tt
           (mkGoroutine demo_URL true tt [] [])
           [RecvTick; RecvCancel; RecvTick; RecvTick]).
  vm_compute. reflexivity.
Defined.

Lemma UpcomingMovies_requests_witness :
  let g := goroutine_of
             (loop (scripted_Get routes_two_pages) (scripted_decode bodies)
                (Some demo_query) [RecvTick; RecvTick; RecvTick]
                (mkGoroutine demo_URL true tt [] [])) in
  requests g `prefix_of` demo_URL :: map nextURL (pagesChan g) ∧
  Forall (λ u, u ≠ "") (requests g) ∧
  (working g = true →
   requests g ++ [dataURL g] = demo_URL :: map nextURL (pagesChan g)).
Proof.
  apply (UpcomingMovies_requests (scripted_Get routes_two_pages)
           (scripted_decode bodies) demo_client demo_query tt
           (mkGoroutine demo_URL true tt [] [])
           [RecvTick; RecvTick; RecvTick]).
  vm_compute. reflexivity.
Defined.

Example requests_two_pages :
  requests (goroutine_of
              (loop (scripted_Get routes_two_pages) (scripted_decode bodies)
                 (Some demo_query) [RecvTick; RecvTick; RecvTick]
                 (mkGoroutine demo_URL true tt [] [])))
  = [demo_URL; "url2"].
Proof. vm_compute. reflexivity. Qed.

Lemma UpcomingMovies_first_fetch_fails_witness :
  ∃ g : Goroutine,
    loop (scripted_Get ∅) (scripted_decode bodies) (Some demo_query)
         [RecvCancel; RecvTick] (mkGoroutine demo_URL true tt [] [])
    = Closed g ∧
    pagesChan g = [] ∧ requests g = [demo_URL].
Proof.
  apply (UpcomingMovies_first_fetch_fails (scripted_Get ∅)
           (scripted_decode bodies) demo_client demo_query tt
           (mkGoroutine demo_URL true tt [] [])
           (TransportError "unsupported protocol scheme")
           [RecvCancel; RecvTick]).
  - vm_compute. reflexivity.
  - vm_compute. reflexivity.
  - vm_compute. lia.
Defined.

Lemma UpcomingMovies_progress_witness :
  ∃ g : Goroutine,
    loop (scripted_Get routes_two_pages) (scripted_decode bodies)
         (Some demo_query) [RecvTick] (mkGoroutine demo_URL true tt [] [])
    = Waiting g ∧
    pagesChan g = take (ticks [RecvTick]) [page1; page2] ∧
    length (requests g) = ticks [RecvTick].
Proof.
  apply (UpcomingMovies_progress (scripted_Get routes_two_pages)
           (scripted_decode bodies) demo_client demo_query tt
           (mkGoroutine demo_URL true tt [] []) [page1; page2] [RecvTick]).
  - vm_compute. reflexivity.
  - vm_compute. repeat split.
  - repeat constructor; vm_compute; discriminate.
  - vm_compute. lia.
Defined.

(** ** The key lookup and pages that link to themselves *)

(** X17. For any variable name, and whatever trimming does,
    [envOrDefault] returns the empty string exactly when the value of the
    variable and every fallback are blank; a non-blank value of the
    variable wins over all fallbacks, and in general the result is the
    first non-blank candidate, trimmed. *)
Theorem envOrDefault_spec (TrimSpace : string → string)
    (env : gmap string string) (key : string) (fallbacks : list string) :
  (envOrDefault TrimSpace env key fallbacks = ""
   ↔ Forall (λ s, TrimSpace s = "") (Getenv env key :: fallbacks)) ∧
  (TrimSpace (Getenv env key) ≠ "" →
   envOrDefault TrimSpace env key fallbacks = TrimSpace (Getenv env key)) ∧
  (∀ pre c post,
      Getenv env key :: fallbacks = pre ++ c :: post →
      Forall (λ s, TrimSpace s = "") pre → TrimSpace c ≠ "" →
      envOrDefault TrimSpace env key fallbacks = TrimSpace c).
Proof.
  assert (∀ pre c post,
             Getenv env key :: fallbacks = pre ++ c :: post →
             Forall (λ s, TrimSpace s = "") pre → TrimSpace c ≠ "" →
             envOrDefault TrimSpace env key fallbacks = TrimSpace c) as Hfirst.
  { intros pre c post. apply envOrDefault_first. }
  split; [|split; [|done]].
  - split; [|apply envOrDefault_blank].
    intros Hempty.
    destruct (first_non_blank TrimSpace (Getenv env key :: fallbacks))
      as [Hall|(pre & c & post & Heq & Hpre & Hc)]; [done|].
    rewrite (Hfirst pre c post Heq Hpre Hc) in Hempty. done.
  - intros Henv. by apply (Hfirst [] (Getenv env key) fallbacks).
Qed.

Lemma envOrDefault_spec_witness :
  envOrDefault asciiTrimSpace {[ "HOME" := " /root " ]} "HOME" ["x"; "y"]
  = asciiTrimSpace (Getenv {[ "HOME" := " /root " ]} "HOME").
Proof.
  apply (proj1 (proj2 (envOrDefault_spec asciiTrimSpace {[ "HOME" := " /root " ]}
                         "HOME" ["x"; "y"]))).
  vm_compute. discriminate.
Defined.

Section SelfLink.
Context {World : Type}.
Variable http_Get : World → string → result Response * World.
Variable decode :
  string → UpcomingMoviesResultPage → string + UpcomingMoviesResultPage.

(** X18. Nothing bounds the number of pages: if the URL of the cursor
    always yields a page whose "next" URL is that same URL, the goroutine
    sends the page once per tick and never closes the channel, whatever
    [MaxPage] the query had. *)
Theorem loop_self_link (q : UpcomingMovieSearch) (g : Goroutine)
    (page : UpcomingMoviesResultPage) (events : list SelectCase) :
  working g = true →
  (∀ w, (fetch http_Get decode w (dataURL g)).1 = Ok page) →
  nextURL page = dataURL g → dataURL g ≠ "" →
  ∃ g', loop http_Get decode (Some q) events g = Waiting g' ∧
        pagesChan g' = pagesChan g ++ repeat page (ticks events) ∧
        length (requests g') = (length (requests g) + ticks events)%nat.
Proof.
  intros Hw Hf Hnext Hne. rewrite loop_ticks.
  generalize (ticks events). intros n. revert g Hw Hf Hnext Hne.
  induction n as [|n IH]; intros g Hw Hf Hnext Hne.
  - exists g. simpl. rewrite Hw, app_nil_r. split; [done|]. split; [done|lia].
  - simpl repeat. rewrite loop_tick by done.
    rewrite (select_tick_page http_Get decode g page (Hf (world g))), Hw.
    change (index (Links page) "next") with (nextURL page). rewrite Hnext.
    apply eqb_empty_false in Hne as Hne'. rewrite Hne'. simpl andb.
    destruct (IH (mkGoroutine (dataURL g) true
                    (fetch http_Get decode (world g) (dataURL g)).2
                    (requests g ++ [dataURL g]) (pagesChan g ++ [page])))
      as (g' & Hloop & Hsent & Hreq); [done..|].
    exists g'. split; [exact Hloop|]. rewrite Hsent, Hreq. simpl.
    rewrite <- app_assoc, length_app. simpl. split; [done|lia].
Qed.
End SelfLink.

Lemma loop_self_link_witness :
  ∃ g' : Goroutine,
    loop (scripted_Get routes_self) (scripted_decode bodies_self)
         (Some demo_query) [RecvTick; RecvTick; RecvTick]
         (mkGoroutine demo_URL true tt [] [])
    = Waiting g' ∧
    pagesChan g' = [] ++ repeat page_self (ticks [RecvTick; RecvTick; RecvTick]) ∧
    length (requests g') = (0 + ticks [RecvTick; RecvTick; RecvTick])%nat.
Proof.
  apply (loop_self_link (scripted_Get routes_self) (scripted_decode bodies_self)
           demo_query (mkGoroutine demo_URL true tt [] []) page_self
           [RecvTick; RecvTick; RecvTick]).
  - reflexivity.
  - intros []. vm_compute. reflexivity.
  - vm_compute. reflexivity.
  - discriminate.
Defined.
